(** * Corporate Chronicles: the contract with the generative model

    A shallow embedding of the service layer of the application
    (services/geminiService.ts: [extractJson], [fetchCompanyData],
    [CompanyChatSession.sendMessage]) and of the state handler
    [handleDataUpdate] of App.tsx, with the properties the specification
    states about them.

    Conventions of the embedding.
    - A JavaScript string is the list of its UTF-16 code units ([JsString]).
    - A JavaScript value that comes out of [JSON.parse] or out of the
      service is a [JsValue]; an object is a finite map from property
      names to values.
    - [JSON.parse], [String.prototype.match], [String.prototype.trim] and
      [Map] are built-ins of the language: they are modelled here after the
      ECMAScript standard, since the repository has no source for them.
    - A call that can throw returns a sum; [console.log] and
      [console.error] are not modelled.
    - The state of a React component changes at a render, not at the call
      that sets it. Where a property depends on the moment, the state is the
      value last rendered together with the updaters queued since
      ([DataHook]); elsewhere it is the value that the updaters give once
      they have run. *)

From Stdlib Require Import ZArith NArith Ascii String Lia.
From stdpp Require Import gmap list fin_maps.

Set Warnings "-register-all".
Local Open Scope N_scope.

(** ** Strings *)

Definition JsString := list N.

(** The code units of an ASCII literal. *)
Definition str (s : string) : JsString :=
  map N_of_ascii (list_ascii_of_string s).

(** WhiteSpace and LineTerminator code units: the class [\s] of regular
    expressions, which is also what [trim] strips. *)
Definition is_js_space (c : N) : bool :=
  existsb (N.eqb c)
    [9; 10; 11; 12; 13; 32; 160; 5760; 8232; 8233; 8239; 8287; 12288; 65279]
  || ((8192 <=? c) && (c <=? 8202)).

Fixpoint trimStart (s : JsString) : JsString :=
  match s with
  | c :: s' => if is_js_space c then trimStart s' else s
  | [] => []
  end.

Fixpoint trimEnd (s : JsString) : JsString :=
  match s with
  | c :: s' => if forallb is_js_space s then [] else c :: trimEnd s'
  | [] => []
  end.

Definition trim (s : JsString) : JsString := trimEnd (trimStart s).

Fixpoint startsWith (p s : JsString) : bool :=
  match p, s with
  | [], _ => true
  | a :: p', b :: s' => (a =? b) && startsWith p' s'
  | _ :: _, [] => false
  end.

(** ** Values *)

Inductive JsValue :=
| JUndefined
| JNull
| JBool (b : bool)
| JNumber (m e : Z)          (* the double nearest to m * 10^e *)
| JString (s : JsString)
| JArray (l : list JsValue)
| JObject (o : gmap JsString JsValue).

(** An object: its properties by name. *)
Abbreviation Obj := (gmap JsString JsValue).

(** A decimal m * 10^e rounds to the double zero iff it is zero or at most
    half the least subnormal, 2^-1075. *)
Definition rounds_to_zero (m e : Z) : bool :=
  ((m =? 0) || ((e <? 0) && (Z.abs m * 2 ^ 1075 <=? 10 ^ (- e))))%Z.

(** ToBoolean. *)
Definition truthy (v : JsValue) : bool :=
  match v with
  | JUndefined | JNull => false
  | JBool b => b
  | JNumber m e => negb (rounds_to_zero m e)
  | JString s => match s with [] => false | _ => true end
  | JArray _ | JObject _ => true
  end.

Fixpoint decimal_digits (fuel : nat) (n : N) (acc : JsString) : JsString :=
  match fuel with
  | O => acc
  | S fuel' =>
      let acc' := (48 + n mod 10) :: acc in
      if n <? 10 then acc' else decimal_digits fuel' (n / 10) acc'
  end.

(** ToString of an array index. *)
Definition index_key (i : nat) : JsString :=
  decimal_digits (S i) (N.of_nat i) [].

Definition indexed {A} (f : A -> JsValue) (l : list A) : Obj :=
  list_to_map (imap (fun i x => (index_key i, f x)) l).

(** The own enumerable properties that an object spread [{...v}] copies. *)
Definition own_props (v : JsValue) : Obj :=
  match v with
  | JObject o => o
  | JArray l => indexed id l
  | JString s => indexed (fun c => JString [c]) s
  | _ => ∅
  end.

(** [{...a, ...b}]: the properties of [b] override those of [a]. *)
Definition spread2 (a b : JsValue) : Obj := own_props b ∪ own_props a.

(** ** Regular expressions

    The fragment the service uses: literals, greedy and lazy iteration of a
    character class, capture groups and concatenation, run by a backtracking
    matcher in continuation-passing style. *)

Inductive regex :=
| Lit (l : JsString)
| Star (greedy : bool) (cls : N -> bool)
| Group (r : regex)
| Seq (r1 r2 : regex).

Section Matcher.
Context {R : Type}.

Fixpoint star_greedy (cls : N -> bool) (s : JsString)
    (k : JsString -> option R) : option R :=
  match s with
  | c :: s' =>
      if cls c then
        match star_greedy cls s' k with
        | Some r => Some r
        | None => k s
        end
      else k s
  | [] => k []
  end.

Fixpoint star_lazy (cls : N -> bool) (s : JsString)
    (k : JsString -> option R) : option R :=
  match k s with
  | Some r => Some r
  | None =>
      match s with
      | c :: s' => if cls c then star_lazy cls s' k else None
      | [] => None
      end
  end.

(** [exec r s caps k]: match [r] at the head of [s]; [caps] are the
    captures so far, [k] receives the rest of the input. *)
Fixpoint exec (r : regex) (s : JsString) (caps : list JsString)
    (k : JsString -> list JsString -> option R) : option R :=
  match r with
  | Lit l => if startsWith l s then k (drop (length l) s) caps else None
  | Star true cls => star_greedy cls s (fun s' => k s' caps)
  | Star false cls => star_lazy cls s (fun s' => k s' caps)
  | Group r1 =>
      exec r1 s caps
        (fun s' caps' => k s' (caps' ++ [take (length s - length s') s]))
  | Seq r1 r2 => exec r1 s caps (fun s' caps' => exec r2 s' caps' k)
  end.
End Matcher.

(** The match array for a match starting at the head of [s]:
    the matched text, then the captures. *)
Definition match_here (r : regex) (s : JsString) : option (list JsString) :=
  exec r s [] (fun s' caps => Some (take (length s - length s') s :: caps)).

(** [text.match(r)] for a regex without the global flag: the leftmost
    match, or [None] for null. *)
Fixpoint String_match (r : regex) (s : JsString) : option (list JsString) :=
  match match_here r s with
  | Some m => Some m
  | None =>
      match s with
      | _ :: s' => String_match r s'
      | [] => None
      end
  end.

(** ** JSON.parse

    The JSON grammar of ECMA-404 as [JSON.parse] reads it, without reviver:
    [None] stands for the SyntaxError it throws. *)

Module JSON.

Definition is_ws (c : N) : bool := existsb (N.eqb c) [9; 10; 13; 32].

Fixpoint skip_ws (s : JsString) : JsString :=
  match s with
  | c :: s' => if is_ws c then skip_ws s' else s
  | [] => []
  end.

Definition digit_val (c : N) : option Z :=
  if (48 <=? c) && (c <=? 57) then Some (Z.of_N (c - 48)) else None.

Definition hex_val (c : N) : option N :=
  if (48 <=? c) && (c <=? 57) then Some (c - 48)
  else if (97 <=? c) && (c <=? 102) then Some (c - 87)
  else if (65 <=? c) && (c <=? 70) then Some (c - 55)
  else None.

(** The character an escape [\c] stands for ([\u] apart). *)
Definition simple_escape (c : N) : option N :=
  if c =? 34 then Some 34            (* quote *)
  else if c =? 92 then Some 92       (* backslash *)
  else if c =? 47 then Some 47       (* slash *)
  else if c =? 98 then Some 8        (* escape b *)
  else if c =? 102 then Some 12      (* escape f *)
  else if c =? 110 then Some 10      (* escape n *)
  else if c =? 114 then Some 13      (* escape r *)
  else if c =? 116 then Some 9       (* escape t *)
  else None.

Definition hex4 (a b c d : N) : option N :=
  match hex_val a, hex_val b, hex_val c, hex_val d with
  | Some x, Some y, Some z, Some w => Some (((x * 16 + y) * 16 + z) * 16 + w)
  | _, _, _, _ => None
  end.

(** The characters of a string after its opening quote, up to and
    including the closing quote. *)
Fixpoint parse_chars (s acc : JsString) : option (JsString * JsString) :=
  match s with
  | [] => None
  | c :: s' =>
      if c =? 34 then Some (acc, s')
      else if c =? 92 then
        match s' with
        | 117 :: h1 :: h2 :: h3 :: h4 :: s'' =>
            match hex4 h1 h2 h3 h4 with
            | Some u => parse_chars s'' (acc ++ [u])
            | None => None
            end
        | e :: s'' =>
            match simple_escape e with
            | Some x => parse_chars s'' (acc ++ [x])
            | None => None
            end
        | [] => None
        end
      else if c <? 32 then None
      else parse_chars s' (acc ++ [c])
  end.

Definition parse_string (s : JsString) : option (JsString * JsString) :=
  match s with
  | 34 :: s' => parse_chars s' []
  | _ => None
  end.

Fixpoint take_digits (s : JsString) : list Z * JsString :=
  match s with
  | c :: s' =>
      match digit_val c with
      | Some d => let '(ds, r) := take_digits s' in (d :: ds, r)
      | None => ([], s)
      end
  | [] => ([], [])
  end.

Definition digits_to_Z (ds : list Z) : Z :=
  foldl (fun a d => 10 * a + d)%Z 0%Z ds.

(** number = [-] int [frac] [exp] *)
Definition parse_number (s : JsString) : option (JsValue * JsString) :=
  let '(neg, s1) := match s with 45 :: r => (true, r) | _ => (false, s) end in
  let '(ip, s2) := take_digits s1 in
  match ip with
  | [] => None
  | 0%Z :: _ :: _ => None
  | _ =>
      let '(fp, s3, ok_frac) :=
        match s2 with
        | 46 :: r =>
            let '(f, r') := take_digits r in
            (f, r', match f with [] => false | _ => true end)
        | _ => ([], s2, true)
        end in
      let '(ex, s4, ok_exp) :=
        match s3 with
        | c :: r =>
            if (c =? 101) || (c =? 69) then
              let '(eneg, r1) :=
                match r with
                | 45 :: r' => (true, r')
                | 43 :: r' => (false, r')
                | _ => (false, r)
                end in
              let '(ed, r2) := take_digits r1 in
              (if eneg then (- digits_to_Z ed)%Z else digits_to_Z ed, r2,
               match ed with [] => false | _ => true end)
            else (0%Z, s3, true)
        | [] => (0%Z, s3, true)
        end in
      if ok_frac && ok_exp then
        let m := digits_to_Z (ip ++ fp) in
        Some (JNumber (if neg then - m else m) (ex - Z.of_nat (length fp)), s4)
      else None
  end.

Definition parse_literal (s : JsString) : option (JsValue * JsString) :=
  if startsWith (str "true") s then Some (JBool true, drop 4 s)
  else if startsWith (str "false") s then Some (JBool false, drop 5 s)
  else if startsWith (str "null") s then Some (JNull, drop 4 s)
  else None.

(** A value, the elements of an array after [[], the members of an
    object after [{]. Each step down consumes input, so a fuel of twice
    the length of the text is never exhausted. A repeated member name
    keeps the last value. *)
Fixpoint parse_value (fuel : nat) (s : JsString) : option (JsValue * JsString) :=
  match fuel with
  | O => None
  | S fuel' =>
      match skip_ws s with
      | [] => None
      | c :: s' =>
          if c =? 123 then
            match skip_ws s' with
            | 125 :: r => Some (JObject ∅, r)
            | _ => parse_members fuel' s' ∅
            end
          else if c =? 91 then
            match skip_ws s' with
            | 93 :: r => Some (JArray [], r)
            | _ => parse_elements fuel' s' []
            end
          else if c =? 34 then
            match parse_chars s' [] with
            | Some (x, r) => Some (JString x, r)
            | None => None
            end
          else if (c =? 45) || ((48 <=? c) && (c <=? 57)) then
            parse_number (c :: s')
          else parse_literal (c :: s')
      end
  end
with parse_elements (fuel : nat) (s : JsString) (acc : list JsValue)
    : option (JsValue * JsString) :=
  match fuel with
  | O => None
  | S fuel' =>
      match parse_value fuel' s with
      | Some (v, r) =>
          match skip_ws r with
          | 44 :: r' => parse_elements fuel' r' (acc ++ [v])
          | 93 :: r' => Some (JArray (acc ++ [v]), r')
          | _ => None
          end
      | None => None
      end
  end
with parse_members (fuel : nat) (s : JsString) (acc : Obj)
    : option (JsValue * JsString) :=
  match fuel with
  | O => None
  | S fuel' =>
      match parse_string (skip_ws s) with
      | Some (key, r) =>
          match skip_ws r with
          | 58 :: r1 =>
              match parse_value fuel' r1 with
              | Some (v, r2) =>
                  match skip_ws r2 with
                  | 44 :: r3 => parse_members fuel' r3 (<[key := v]> acc)
                  | 125 :: r3 => Some (JObject (<[key := v]> acc), r3)
                  | _ => None
                  end
              | None => None
              end
          | _ => None
          end
      | None => None
      end
  end.

Definition parse (text : JsString) : option JsValue :=
  match parse_value (2 * length text + 2) text with
  | Some (v, r) => match skip_ws r with [] => Some v | _ => None end
  | None => None
  end.

End JSON.

(** ** The response parser (geminiService.ts, [extractJson]) *)

Definition any_char (c : N) : bool := true.

(** [/```json\s*([\s\S]*?)\s*```/] *)
Definition jsonBlockRegex : regex :=
  Seq (Lit (str "```json"))
    (Seq (Star true is_js_space)
      (Seq (Group (Star false any_char))
        (Seq (Star true is_js_space) (Lit (str "```"))))).

(** The body of the [try] block: [None] when it throws. *)
Definition extractJson_try (text : JsString) : option JsValue :=
  let fallback :=
    if startsWith (str "{") (trim text) then JSON.parse text
    else None (* throw new Error("No JSON found") *) in
  match String_match jsonBlockRegex text with
  | Some m =>
      match m !! 1%nat with
      | Some (c :: cs) => JSON.parse (c :: cs)
      | _ => fallback
      end
  | None => fallback
  end.

(** Whatever is thrown is caught, and [null] returned. *)
Definition extractJson (text : JsString) : JsValue :=
  match extractJson_try text with
  | Some v => v
  | None => JNull
  end.

(** The code units of a literal in which the apostrophe stands for the
    double quote. *)
Definition qstr (s : string) : JsString :=
  map (fun c => if c =? 39 then 34 else c) (str s).

(** ** Completions *)

Inductive JsError := Error (message : JsString).

(** How a call ends: with a value, or with an exception. *)
Inductive Completion (A : Type) :=
| Returns (a : A)
| Throws (e : JsError).
Arguments Returns {A} a.
Arguments Throws {A} e.

(** ** Map

    A [Map] keeps its entries in insertion order; [set] on a key that is
    present replaces the value and leaves the entry where it is. *)

Section JsMap.
Context {K V : Type} `{EqDecision K}.

Fixpoint Map_set (m : list (K * V)) (k : K) (v : V) : list (K * V) :=
  match m with
  | [] => [(k, v)]
  | (k', v') :: m' =>
      if decide (k = k') then (k', v) :: m' else (k', v') :: Map_set m' k v
  end.

(** [new Map(entries)] *)
Definition Map_new (entries : list (K * V)) : list (K * V) :=
  foldl (fun m e => Map_set m e.1 e.2) [] entries.

(** [Array.from(m.values())] *)
Definition Map_values (m : list (K * V)) : list V := m.*2.
End JsMap.

(** ** The query service (geminiService.ts, [fetchCompanyData]) *)

(** The part of a [generateContent] response that the service reads. An
    optional field that is absent is [None]. *)
Record WebChunk := { web_title : option JsString; web_uri : option JsString }.
Record GroundingChunk := { web : option WebChunk }.
Record GroundingMetadata := { groundingChunks : option (list GroundingChunk) }.
Record Candidate := { groundingMetadata : option GroundingMetadata }.
Record GenerateContentResponse := {
  text : option JsString;
  candidates : option (list Candidate)
}.

Record GroundingSource := { title : option JsString; uri : option JsString }.

Global Instance GroundingSource_eq_dec : EqDecision GroundingSource.
Proof. solve_decision. Defined.

Definition opt_to_js (s : option JsString) : JsValue :=
  match s with
  | Some x => JString x
  | None => JUndefined
  end.

(** The object [{ title: ..., uri: ... }] of a source. *)
Definition source_to_js (s : GroundingSource) : JsValue :=
  JObject (<[str "title" := opt_to_js (title s)]>
           (<[str "uri" := opt_to_js (uri s)]> ∅)).

(** [response.candidates?.[0]?.groundingMetadata?.groundingChunks || []] *)
Definition response_groundingChunks (response : GenerateContentResponse)
    : list GroundingChunk :=
  match candidates response with
  | Some (candidate :: _) =>
      match groundingMetadata candidate with
      | Some metadata => default [] (groundingChunks metadata)
      | None => []
      end
  | _ => []
  end.

(** [.map(chunk => chunk.web ? {...} : null).filter(s => s !== null)] *)
Definition chunks_sources (chunks : list GroundingChunk) : list GroundingSource :=
  omap (fun chunk =>
          match web chunk with
          | Some w => Some {| title := web_title w; uri := web_uri w |}
          | None => None
          end) chunks.

(** [Array.from(new Map(sources.map(s => [s.uri, s])).values())] *)
Definition uniqueSources (sources : list GroundingSource) : list GroundingSource :=
  Map_values (Map_new (map (fun s => (uri s, s)) sources)).

(** [response.text || ""] *)
Definition response_text (response : GenerateContentResponse) : JsString :=
  match text response with
  | Some (c :: t) => c :: t
  | _ => []
  end.

Definition parse_failure : JsError :=
  Error (str "Could not parse structured data from the AI response.").

(** [fetchCompanyData], given how the call to [ai.models.generateContent]
    ended. The [catch] logs the error and throws it again. *)
Definition fetchCompanyData (upstream : Completion GenerateContentResponse)
    : Completion Obj :=
  match upstream with
  | Throws e => Throws e
  | Returns response =>
      let text := response_text response in
      let parsedData := extractJson text in
      if negb (truthy parsedData) then Throws parse_failure
      else
        let groundingChunks := response_groundingChunks response in
        let sources := chunks_sources groundingChunks in
        Returns (<[str "sources" := JArray (source_to_js <$> uniqueSources sources)]>
                 (own_props parsedData))
  end.

(** ** The application state (App.tsx) *)

(** The [data] state: [None] is null. *)
Definition DataState := option Obj.

(** The updater that [handleDataUpdate] hands to [setData]. *)
Definition handleDataUpdate (updates : JsValue) (prev : DataState) : DataState :=
  match prev with
  | None => None
  | Some p => Some (spread2 (JObject p) updates)
  end.

(** ** The conversational session (geminiService.ts, [CompanyChatSession]) *)

Record FunctionCall := {
  fc_name : option JsString;
  fc_id : option JsString;
  fc_args : JsValue
}.

(** The part of a chat response that the session reads. *)
Record ChatResponse := {
  chat_text : option JsString;
  functionCalls : option (list FunctionCall)
}.

Record FunctionResponse := {
  fr_name : option JsString;
  fr_id : option JsString;
  fr_response : JsValue
}.

(** What is sent to the dialogue: the user's message, or a batch of
    function responses. *)
Inductive ChatInput :=
| UserText (message : JsString)
| ToolResults (parts : list FunctionResponse).

(** What happens during a turn, in order. *)
Inductive Event :=
| Sent (m : ChatInput)
| Received (r : Completion ChatResponse)
| Updated (args : JsValue).

(** How a promise stands: [Pending] is an [await] on a reply that the script
    of the dialogue does not hold. *)
Inductive Outcome :=
| Resolved (reply : JsString)
| Rejected (e : JsError)
| Pending.

Definition update_company_data : JsString := str "update_company_data".

Definition success_response : JsValue :=
  JObject (<[str "result" := JString (str "success: visualization updated")]> ∅).

Definition default_reply : JsString := str "I updated the information.".

Definition error_reply : JsString :=
  str "I encountered an error processing your request.".

Section Session.
(** The state the callback acts on, and the callback. *)
Context {S : Type} (onUpdate : JsValue -> S -> S).

Record World := { app : S; events : list Event }.

Definition emit (e : Event) (w : World) : World :=
  {| app := app w; events := events w ++ [e] |}.

(** [this.onUpdate(args)] *)
Definition call_onUpdate (args : JsValue) (w : World) : World :=
  {| app := onUpdate args (app w); events := events w ++ [Updated args] |}.

Definition acknowledgment (call : FunctionCall) : FunctionResponse :=
  {| fr_name := fc_name call; fr_id := fc_id call;
     fr_response := success_response |}.

(** The [for] loop over the function calls of one response. *)
Fixpoint run_calls (calls : list FunctionCall) (w : World)
    (functionResponses : list FunctionResponse)
    : World * list FunctionResponse :=
  match calls with
  | [] => (w, functionResponses)
  | call :: rest =>
      if decide (fc_name call = Some update_company_data) then
        run_calls rest (call_onUpdate (fc_args call) w)
          (functionResponses ++ [acknowledgment call])
      else run_calls rest w functionResponses
  end.

(** [return response.text || "I updated the information."] *)
Definition final_text (response : ChatResponse) : JsString :=
  match chat_text response with
  | Some (c :: t) => c :: t
  | _ => default_reply
  end.

(** The [while] loop, entered with the last response. The dialogue
    answers each message with the next entry of [script]. *)
Fixpoint tool_loop (script : list (Completion ChatResponse))
    (response : ChatResponse) (w : World) : World * Outcome :=
  match functionCalls response with
  | Some (call :: calls) =>
      let '(w1, functionResponses) := run_calls (call :: calls) w [] in
      match functionResponses with
      | _ :: _ =>
          let w2 := emit (Sent (ToolResults functionResponses)) w1 in
          match script with
          | [] => (w2, Pending)
          | Throws e :: _ => (emit (Received (Throws e)) w2, Resolved error_reply)
          | Returns response' :: script' =>
              tool_loop script' response' (emit (Received (Returns response')) w2)
          end
      | [] => (w1, Resolved (final_text response))      (* break *)
      end
  | _ => (w, Resolved (final_text response))
  end.

(** The loop seen one iteration at a time: the replies still to come,
    the response under inspection, the world. *)
Definition Iteration : Type :=
  list (Completion ChatResponse) * ChatResponse * World.

(** The iteration that follows, when the body of the loop neither breaks
    nor leaves by an exception, and the dialogue answers. *)
Definition next_iteration (it : Iteration) : option Iteration :=
  let '(script, response, w) := it in
  match functionCalls response with
  | Some (call :: calls) =>
      let '(w1, functionResponses) := run_calls (call :: calls) w [] in
      match functionResponses, script with
      | _ :: _, Returns response' :: script' =>
          Some (script', response',
                emit (Received (Returns response'))
                  (emit (Sent (ToolResults functionResponses)) w1))
      | _, _ => None
      end
  | _ => None
  end.

(** The loop run from an iteration. *)
Definition run_from (it : Iteration) : World * Outcome :=
  let '(script, response, w) := it in tool_loop script response w.

(** The iteration on which a turn enters the loop. *)
Definition first_iteration (message : JsString)
    (script : list (Completion ChatResponse)) (w : World) : option Iteration :=
  match script with
  | Returns response :: script' =>
      Some (script', response,
            emit (Received (Returns response)) (emit (Sent (UserText message)) w))
  | _ => None
  end.

(** The iterations a turn goes through. *)
Definition in_turn (message : JsString)
    (script : list (Completion ChatResponse)) (w : World) (it : Iteration) : Prop :=
  exists it0, first_iteration message script w = Some it0
              /\ rtc (fun a b => next_iteration a = Some b) it0 it.

(** [sendMessage(message)]; an exception of the dialogue is caught and
    answered with a fixed reply. *)
Definition sendMessage (message : JsString)
    (script : list (Completion ChatResponse)) (w : World) : World * Outcome :=
  let w1 := emit (Sent (UserText message)) w in
  match script with
  | [] => (w1, Pending)
  | Throws e :: _ => (emit (Received (Throws e)) w1, Resolved error_reply)
  | Returns response :: script' =>
      tool_loop script' response (emit (Received (Returns response)) w1)
  end.
End Session.

Arguments World : clear implicits.
Arguments Build_World {S} app events.
Arguments Iteration : clear implicits.

(** ** The [data] state between renders (App.tsx, [useState])

    [setData(updater)] does not change [data]: it queues the updater, and
    React calls the queued updaters, in order, when it next renders the
    component, which it cannot do while a stretch of code runs without an
    [await]. *)
Record DataHook := {
  rendered : DataState;                       (* [data], as last rendered *)
  queued : list (DataState -> DataState)      (* the updaters that wait *)
}.

Definition setData (updater : DataState -> DataState) (h : DataHook) : DataHook :=
  {| rendered := rendered h; queued := queued h ++ [updater] |}.

(** The next render. *)
Definition render (h : DataHook) : DataHook :=
  {| rendered := foldl (fun prev updater => updater prev) (rendered h) (queued h);
     queued := [] |}.

(** The callback that [ChatWindow] hands to the session:
    [(updates) => { onUpdateData(updates); }], where [onUpdateData] is the
    [handleDataUpdate] of [App]. *)
Definition onUpdateData (updates : JsValue) : DataHook -> DataHook :=
  setData (handleDataUpdate updates).

(** * What the specification says, as definitions *)

(** ** Source deduplication *)

(** The keys of a list in the order in which each first appears. *)
Fixpoint first_occurrences {K} `{EqDecision K} (ks : list K) : list K :=
  match ks with
  | [] => []
  | k :: ks' => k :: filter (fun k' => k' ≠ k) (first_occurrences ks')
  end.

(** Deduplication by [uri] in which the first source bearing a uri is the
    one retained: the reading of the specification. *)
Fixpoint dedup_first_wins (sources : list GroundingSource) : list GroundingSource :=
  match sources with
  | [] => []
  | s :: rest => s :: filter (fun s' => uri s' ≠ uri s) (dedup_first_wins rest)
  end.

(** The last source of a list that bears the uri [u]. *)
Definition last_bearing (u : option JsString) (sources : list GroundingSource)
    : option GroundingSource :=
  last (filter (fun s => uri s = u) sources).

(** ** The response parser *)

(** The first occurrence of [pat] in [s]: the text before it and the text
    after it. *)
Fixpoint find_sub (pat s : JsString) : option (JsString * JsString) :=
  if startsWith pat s then Some ([], drop (length pat) s)
  else
    match s with
    | c :: s' =>
        match find_sub pat s' with
        | Some (before, after) => Some (c :: before, after)
        | None => None
        end
    | [] => None
    end.

(** The first place of [s] from which [Q] holds: the text before it, and
    the text from it on. *)
Fixpoint lazy_split (Q : JsString -> bool) (s : JsString)
    : option (JsString * JsString) :=
  if Q s then Some ([], s)
  else
    match s with
    | c :: s' =>
        match lazy_split Q s' with
        | Some (p, r) => Some (c :: p, r)
        | None => None
        end
    | [] => None
    end.

(** A closing fence follows, after white space at most. *)
Definition closes (s : JsString) : bool := startsWith (str "```") (trimStart s).

(** The text between the first opening fence and the closing fence that
    follows it. *)
Definition fenced_body (text : JsString) : option JsString :=
  match find_sub (str "```json") text with
  | Some (_, after) =>
      match find_sub (str "```") after with
      | Some (body, _) => Some body
      | None => None
      end
  | None => None
  end.

Definition parse_or_null (t : JsString) : JsValue := default JNull (JSON.parse t).

(** The three steps as the specification words them: the contents of the
    first fenced block; else the trimmed text when it opens with a brace;
    else, and on a parse failure, null. *)
Definition extractJson_spec (text : JsString) : JsValue :=
  match fenced_body text with
  | Some body => parse_or_null body
  | None =>
      if startsWith (str "{") (trim text) then parse_or_null (trim text)
      else JNull
  end.

(** The three steps as the code takes them: the trimmed contents of the
    first fenced block when they are not empty; else the whole text when,
    trimmed, it opens with a brace; else, and on a parse failure, null. *)
Definition extractJson_steps (text : JsString) : JsValue :=
  match trim <$> fenced_body text with
  | Some (c :: contents) => parse_or_null (c :: contents)
  | _ =>
      if startsWith (str "{") (trim text) then parse_or_null text
      else JNull
  end.

(** ** Timeline categories *)

Definition categories : list JsString :=
  [str "founding"; str "product"; str "acquisition"; str "scandal"; str "general"].

Definition valid_category (v : JsValue) : bool :=
  match v with
  | JString c => bool_decide (c ∈ categories)
  | _ => false
  end.

(** The [category] of every event of a timeline is one of the enumeration. *)
Definition timeline_categories_valid (timeline : JsValue) : bool :=
  match timeline with
  | JArray events =>
      forallb (fun ev => match own_props ev !! str "category" with
                         | Some c => valid_category c
                         | None => false
                         end) events
  | _ => true
  end.

(** ** The turn protocol *)

(** The calls of a response that name the declared tool. *)
Definition recognized (calls : list FunctionCall) : list FunctionCall :=
  filter (fun call => fc_name call = Some update_company_data) calls.

Definition is_rejected (o : Outcome) : bool :=
  match o with Rejected _ => true | _ => false end.

(** The dialogue failed during the turn. *)
Definition call_failed (evs : list Event) : Prop :=
  exists e, Received (Throws e) ∈ evs.

(** A source that has only a uri. *)
Definition cite (u : string) : GroundingSource :=
  {| title := None; uri := Some (str u) |}.

(** * Sample inputs *)

(** A response with the given grounding chunks around the given text, in
    which the apostrophe stands for the double quote. *)
Definition cited_response (chunks : list GroundingChunk) (body : string)
    : GenerateContentResponse :=
  {| text := Some (qstr body);
     candidates := Some [{| groundingMetadata :=
                              Some {| groundingChunks := Some chunks |} |}] |}.

Definition web_chunk (t u : string) : GroundingChunk :=
  {| web := Some {| web_title := Some (str t); web_uri := Some (str u) |} |}.

Definition bare_chunk (u : string) : GroundingChunk :=
  {| web := Some {| web_title := None; web_uri := Some (str u) |} |}.

(** The citations a, b and a again, around an empty object. *)
Definition aba_response : GenerateContentResponse :=
  cited_response [bare_chunk "a"; bare_chunk "b"; bare_chunk "a"] "```json {} ```".

(** Replies of the dialogue. *)
Definition text_reply (t : string) : ChatResponse :=
  {| chat_text := Some (str t); functionCalls := None |}.

Definition calls_reply (calls : list FunctionCall) : ChatResponse :=
  {| chat_text := None; functionCalls := Some calls |}.

Definition update_call (id : string) (args : JsValue) : FunctionCall :=
  {| fc_name := Some update_company_data; fc_id := Some (str id); fc_args := args |}.

Definition other_call (name id : string) : FunctionCall :=
  {| fc_name := Some (str name); fc_id := Some (str id); fc_args := JObject ∅ |}.

Definition start {S} (st : S) : World S := {| app := st; events := [] |}.

Definition new_timeline : JsValue :=
  JObject {[ str "timeline" := JArray [] ]}.

Definition merger_turn : list (Completion ChatResponse) :=
  [Returns (calls_reply [update_call "1" new_timeline]);
   Returns (calls_reply [other_call "delete_everything" "2"]);
   Returns (text_reply "never read")].

Definition after_first_update : World DataState :=
  {| app := Some {[ str "timeline" := JArray [] ]};
     events := [Sent (UserText (str "add the merger"));
                Received (Returns (calls_reply [update_call "1" new_timeline]));
                Updated new_timeline;
                Sent (ToolResults [acknowledgment (update_call "1" new_timeline)]);
                Received (Returns (calls_reply [other_call "delete_everything" "2"]))] |}.

(** A record as a query leaves it. *)
Definition founding_event : JsValue :=
  JObject {[ str "year" := JNumber 1889 0;
             str "title" := JString (str "Founded");
             str "description" := JString (str "Playing cards");
             str "category" := JString (str "founding") ]}.

Definition acme : Obj :=
  {[ str "companyName" := JString (str "Acme");
     str "summary" := JString (str "A company.");
     str "timeline" := JArray [founding_event];
     str "structure" := JObject {[ str "name" := JString (str "Acme");
                                   str "role" := JString (str "root") ]};
     str "sources" := JArray [] ]}.

(** An event whose category is none of the enumeration. *)
Definition merger_event : JsValue :=
  JObject {[ str "year" := JNumber 1999 0;
             str "title" := JString (str "Merger");
             str "description" := JString (str "Merged");
             str "category" := JString (str "merger") ]}.

Definition merger_response : GenerateContentResponse :=
  cited_response []
    "Here it is: ```json { 'companyName': 'Acme', 'timeline': [ { 'year': 1999, 'title': 'Merger', 'description': 'Merged', 'category': 'merger' } ] } ```".

(** A request to replace the timeline by the merger alone, and the turn in
    which the dialogue makes it and then answers. *)
Definition merger_request : FunctionCall :=
  update_call "1" (JObject {[ str "timeline" := JArray [merger_event] ]}).

Definition merger_dialogue : list (Completion ChatResponse) :=
  [Returns (calls_reply [merger_request]); Returns (text_reply "Done.")].

(** The application with the record [acme] rendered and nothing queued, at
    the moment the first reply of [merger_dialogue] has come in. *)
Definition merger_requested : World DataHook :=
  {| app := {| rendered := Some acme; queued := [] |};
     events := [Sent (UserText (str "add the merger"));
                Received (Returns (calls_reply [merger_request]))] |}.

(** * The rest of the application *)

(** ** Property access *)

(** [v.k] for a name [k] that no built-in prototype defines: [None] is the
    TypeError on null and undefined. *)
Definition get_prop (v : JsValue) (k : JsString) : option JsValue :=
  match v with
  | JUndefined | JNull => None
  | _ => Some (default JUndefined (own_props v !! k))
  end.

(** [a || b] *)
Definition js_or (a b : JsValue) : JsValue := if truthy a then a else b.

(** ** The search handler (App.tsx, [handleSearch]) *)

Inductive Tab := TimelineTab | StructureTab.

(** The state of [App]: one field for each [useState]. *)
Record AppState := {
  st_query : JsString;
  st_loading : bool;
  st_data : DataState;
  st_error : option JsString;
  st_activeTab : Tab;
  st_isChatOpen : bool
}.

Definition fetch_failure : JsString :=
  str "Failed to fetch company data. Please try again.".

(** Up to the [await]: [None] when the handler returns at once, on a query
    that is blank. *)
Definition handleSearch_begin (st : AppState) : option AppState :=
  match trim (st_query st) with
  | [] => None
  | _ :: _ =>
      Some {| st_query := st_query st;
              st_loading := true;
              st_data := None;
              st_error := None;
              st_activeTab := st_activeTab st;
              st_isChatOpen := false |}
  end.

(** [err.message || "Failed to fetch company data. Please try again."] *)
Definition error_message (e : JsError) : JsString :=
  match e with
  | Error (c :: m) => c :: m
  | Error [] => fetch_failure
  end.

(** From the [await] on: [try], [catch] and [finally]. *)
Definition handleSearch_end (result : Completion Obj) (st : AppState) : AppState :=
  match result with
  | Returns record =>
      {| st_query := st_query st;
         st_loading := false;
         st_data := Some record;
         st_error := st_error st;
         st_activeTab := st_activeTab st;
         st_isChatOpen := st_isChatOpen st |}
  | Throws err =>
      {| st_query := st_query st;
         st_loading := false;
         st_data := st_data st;
         st_error := Some (error_message err);
         st_activeTab := st_activeTab st;
         st_isChatOpen := st_isChatOpen st |}
  end.

(** [handleSearch], given how the call to the generative service ended. *)
Definition handleSearch (upstream : Completion GenerateContentResponse)
    (st : AppState) : AppState :=
  match handleSearch_begin st with
  | None => st
  | Some st1 => handleSearch_end (fetchCompanyData upstream) st1
  end.

(** ** What [App] renders from the record *)

(** The link of a source: [source.uri] and [source.title || source.uri]. *)
Definition source_link (source : JsValue) : option (JsValue * JsValue) :=
  match get_prop source (str "uri"), get_prop source (str "title") with
  | Some u, Some t => Some (u, js_or t u)
  | _, _ => None
  end.

(** [data.sources.slice(0, 6).map(...)]: the links shown, [None] when the
    expression throws. *)
Definition sources_links (data : Obj) : option (list (JsValue * JsValue)) :=
  match data !! str "sources" with
  | Some (JArray sources) => mapM source_link (take 6 sources)
  | _ => None
  end.

(** The link of a source of the service: its uri, under its title, or under
    the uri when the title is absent or empty. *)
Definition source_pair (s : GroundingSource) : JsValue * JsValue :=
  (opt_to_js (uri s),
   match title s with
   | Some (c :: t) => JString (c :: t)
   | _ => opt_to_js (uri s)
   end).

(** [e => e.category === 'founding'] *)
Definition is_founding (e : JsValue) : option bool :=
  match get_prop e (str "category") with
  | Some (JString c) => Some (bool_decide (c = str "founding"))
  | Some _ => Some false
  | None => None
  end.

(** [Array.prototype.find]: the first element on which the predicate
    holds, or undefined; [None] when the predicate throws. *)
Fixpoint Array_find (p : JsValue -> option bool) (l : list JsValue)
    : option JsValue :=
  match l with
  | [] => Some JUndefined
  | x :: l' =>
      match p x with
      | Some true => Some x
      | Some false => Array_find p l'
      | None => None
      end
  end.

(** [v?.k] *)
Definition optional_prop (v : JsValue) (k : JsString) : JsValue :=
  default JUndefined (get_prop v k).

(** The founding date of the info card:
    [find(...)?.dateStr || find(...)?.year || 'N/A']. *)
Definition founding_date (data : Obj) : option JsValue :=
  match data !! str "timeline" with
  | Some (JArray events) =>
      match Array_find is_founding events with
      | Some found =>
          Some (js_or (optional_prop found (str "dateStr"))
                  (js_or (optional_prop found (str "year")) (JString (str "N/A"))))
      | None => None
      end
  | _ => None
  end.

(** ** The timeline chart (HistoryChart.tsx) *)

(** The quotient [p / d] of a natural number by a positive one, rounded to
    the nearest integer, a tie to the even one. *)
Definition round_half_even (p d : Z) : Z :=
  let q := (p / d)%Z in
  let r := (p mod d)%Z in
  if (2 * r <? d)%Z then q
  else if (d <? 2 * r)%Z then (q + 1)%Z
  else if Z.even q then q else (q + 1)%Z.

(** Every finite double is a whole number of units of 2^-1074, the least
    subnormal. 2^2098 units, the power of two next above the greatest double,
    stand for Infinity. *)
Definition Infinity_units : Z := (2 ^ 2098)%Z.

(** The Number value of the decimal m * 10^e, in these units: the decimal
    is [p / d] units; it is rounded to a whole unit when it is below 2^53
    units, and to 53 significant bits above, a tie to the even significand;
    what rounds to 2^2098 units or more is Infinity. *)
Definition Number_units (m e : Z) : Z :=
  let p := (Z.abs m * 10 ^ Z.max 0 e * 2 ^ 1074)%Z in
  let d := (10 ^ Z.max 0 (- e))%Z in
  let b0 := (Z.log2 p - Z.log2 d)%Z in
  (* the binary exponent of [p / d], when that is 1 at least *)
  let b := if (p <? d * 2 ^ b0)%Z then (b0 - 1)%Z else b0 in
  let s := Z.max 0 (b - 52) in
  (Z.sgn m * Z.min (round_half_even p (d * 2 ^ s) * 2 ^ s) Infinity_units)%Z.

(** The key by which [(a, b) => a.year - b.year] orders an event whose year
    is a number: the difference of two doubles is negative, zero or positive as
    the first is below, equal to or above the second, two infinities of one
    sign apart, whose difference is NaN, which [sort] takes for zero.
    [None] when reading [year] throws, on null and undefined, and when the
    year is not a number. *)
Definition year_key (event : JsValue) : option Z :=
  match get_prop event (str "year") with
  | Some (JNumber m e) => Some (Number_units m e)
  | _ => None
  end.

Section StableSort.
Context {A : Type} (key : A -> Z).

Fixpoint insert_sorted (x : A) (l : list A) : list A :=
  match l with
  | [] => [x]
  | y :: l' => if (key x <=? key y)%Z then x :: l else y :: insert_sorted x l'
  end.

(** [Array.prototype.sort] with a comparator that orders by an integer key:
    the sort is stable, so that its result is the one of any stable sort. *)
Definition stable_sort (l : list A) : list A := foldr insert_sorted [] l.
End StableSort.

(** Each number is at most the next. *)
Fixpoint ascending (ys : list Z) : bool :=
  match ys with
  | y :: rest =>
      match rest with
      | z :: _ => (y <=? z)%Z && ascending rest
      | [] => true
      end
  | [] => true
  end.

(** An event paired with its key. *)
Definition keyed_by_year (a : Z * JsValue) : Prop := year_key a.2 = Some a.1.

(** [[...data].sort((a, b) => a.year - b.year)]. An array of less than two
    elements comes back as it is, without a call of the comparator. [None]
    where an event of a longer array has no key: there the comparator throws,
    or converts a year that is not a number, which this model does not
    follow. *)
Definition sortedData (data : list JsValue) : option (list JsValue) :=
  match data with
  | [] | [_] => Some data
  | _ =>
      match mapM (fun event => (fun y => (y, event)) <$> year_key event) data with
      | Some keyed => Some (snd <$> stable_sort fst keyed)
      | None => None
      end
  end.

(** ** The chat window (ChatWindow.tsx, [handleSend]) *)

Inductive Role := RoleUser | RoleModel.

Record ChatMessage := {
  msg_id : JsString;
  msg_role : Role;
  msg_text : JsString;
  msg_timestamp : N
}.

(** The state of [ChatWindow] that [handleSend] reads and writes;
    [cw_session] tells whether [chatSessionRef.current] is set. *)
Record ChatWindowState := {
  cw_messages : list ChatMessage;
  cw_input : JsString;
  cw_isLoading : bool;
  cw_session : bool
}.

(** The clock at one moment: what [Date.now()] and [new Date()] read, in
    milliseconds. *)
Record Clock := { Date_now : N; new_Date : N }.

(** [n.toString()] of a non-negative integer. *)
Definition Number_toString (n : N) : JsString :=
  decimal_digits (S (N.size_nat n)) n [].

Definition trouble_reply : JsString :=
  str "Sorry, I had trouble connecting. Please try again.".

(** Up to the [await]: the message sent and the state, or [None] when the
    handler returns at once. *)
Definition handleSend_begin (clock : Clock) (st : ChatWindowState)
    : option (ChatMessage * ChatWindowState) :=
  match trim (cw_input st), cw_session st with
  | _ :: _, true =>
      let userMsg := {| msg_id := Number_toString (Date_now clock);
                        msg_role := RoleUser;
                        msg_text := cw_input st;
                        msg_timestamp := new_Date clock |} in
      Some (userMsg,
            {| cw_messages := cw_messages st ++ [userMsg];
               cw_input := [];
               cw_isLoading := true;
               cw_session := cw_session st |})
  | _, _ => None
  end.

(** From the [await] on, given how the promise of [sendMessage] stands;
    while it is pending nothing happens. *)
Definition handleSend_end (clock : Clock) (outcome : Outcome)
    (st : ChatWindowState) : ChatWindowState :=
  match outcome with
  | Resolved responseText =>
      {| cw_messages := cw_messages st
                        ++ [{| msg_id := Number_toString (Date_now clock + 1);
                               msg_role := RoleModel;
                               msg_text := responseText;
                               msg_timestamp := new_Date clock |}];
         cw_input := cw_input st;
         cw_isLoading := false;
         cw_session := cw_session st |}
  | Rejected _ =>
      {| cw_messages := cw_messages st
                        ++ [{| msg_id := Number_toString (Date_now clock);
                               msg_role := RoleModel;
                               msg_text := trouble_reply;
                               msg_timestamp := new_Date clock |}];
         cw_input := cw_input st;
         cw_isLoading := false;
         cw_session := cw_session st |}
  | Pending => st
  end.

(** ** Readings of the event log *)

Definition sent_inputs (evs : list Event) : list ChatInput :=
  omap (fun e => match e with Sent m => Some m | _ => None end) evs.

Definition received_replies (evs : list Event) : list (Completion ChatResponse) :=
  omap (fun e => match e with Received r => Some r | _ => None end) evs.

Definition received_responses (evs : list Event) : list ChatResponse :=
  omap (fun e => match e with Received (Returns r) => Some r | _ => None end) evs.

Definition applied_updates (evs : list Event) : list JsValue :=
  omap (fun e => match e with Updated args => Some args | _ => None end) evs.

(** The arguments of the [update_company_data] requests of a series of
    responses, in order. *)
Definition requested_updates (responses : list ChatResponse) : list JsValue :=
  responses ≫= (fun r => fc_args <$> recognized (default [] (functionCalls r))).

Definition is_batch (m : ChatInput) : bool :=
  match m with
  | ToolResults (_ :: _) => true
  | _ => false
  end.

(** The sends that a reply has not yet answered. *)
Definition pending_sends (o : Outcome) : nat :=
  match o with Pending => 1 | _ => 0 end.

(** A dialogue that requests [n] updates in a row, then answers. *)
Definition insistent_dialogue (n : nat) (args : JsValue) (answer : ChatResponse)
    : list (Completion ChatResponse) :=
  replicate n (Returns (calls_reply [update_call "1" args])) ++ [Returns answer].

(** ** More sample inputs *)

(** The application with a query typed in, the chat open. *)
Definition acme_search (data : DataState) : AppState :=
  {| st_query := str " Acme "; st_loading := false; st_data := data;
     st_error := None; st_activeTab := StructureTab; st_isChatOpen := true |}.

(** The chat window while a turn is under way. *)
Definition waiting_window : ChatWindowState :=
  {| cw_messages := [{| msg_id := str "init"; msg_role := RoleModel;
                        msg_text := str "Hi!"; msg_timestamp := 1700000000000 |};
                     {| msg_id := str "1700000005000"; msg_role := RoleUser;
                        msg_text := str "add the merger";
                        msg_timestamp := 1700000005000 |}];
     cw_input := [];
     cw_isLoading := true;
     cw_session := true |}.

Definition event_of_year (year : Z) (title : string) : JsValue :=
  JObject {[ str "year" := JNumber year 0; str "title" := JString (str title) ]}.

(** * Proofs *)

(** ** The definitions at work *)

Example extractJson_fenced_block :
  extractJson (qstr "Here you go: ```json { 'companyName': 'Acme' } ``` Anything else?")
  = JObject {[ str "companyName" := JString (str "Acme") ]}.
Proof. vm_compute. reflexivity. Qed.

Example extractJson_first_of_two_blocks :
  extractJson (qstr "```json [1] ``` and then ```json [2] ```") = JArray [JNumber 1 0].
Proof. vm_compute. reflexivity. Qed.

Example extractJson_bare_object :
  extractJson (qstr "  {'a': [1, 2.5e-3, true, null, 'x']}  ")
  = JObject {[ str "a" := JArray [JNumber 1 0; JNumber 25 (-4); JBool true; JNull;
                                  JString (str "x")] ]}.
Proof. vm_compute. reflexivity. Qed.

Example extractJson_no_candidate :
  extractJson (str "I could not find that company.") = JNull.
Proof. vm_compute. reflexivity. Qed.

Example extractJson_malformed_block :
  extractJson (qstr "```json {'a': } ```") = JNull.
Proof. vm_compute. reflexivity. Qed.

Example extractJson_unclosed_block :
  extractJson (qstr "```json {'a': 1}") = JNull.
Proof. vm_compute. reflexivity. Qed.

(** An empty block is passed over, and the whole text parsed. *)
Example extractJson_empty_block :
  extractJson (qstr "{'k': '```json```'}")
  = JObject {[ str "k" := JString (str "```json```") ]}.
Proof. vm_compute. reflexivity. Qed.

Example Map_new_repeated_key :
  Map_new [(1, str "first"); (2, str "other"); (1, str "later")]
  = [(1, str "later"); (2, str "other")].
Proof. vm_compute. reflexivity. Qed.

Example fetchCompanyData_unparseable :
  fetchCompanyData (Returns (cited_response [] "Sorry, nothing found."))
  = Throws parse_failure.
Proof. vm_compute. reflexivity. Qed.

(** ** The response parser *)

Section ParserFacts.
Local Abbreviation fence_open := (str "```json").
Local Abbreviation fence_close := (str "```").

Lemma closing_fence_not_space c s :
  is_js_space c = true -> startsWith fence_close (c :: s) = false.
Proof.
  intros H. change (((96 =? c) && startsWith (str "``") s) = false).
  destruct (N.eqb_spec 96 c) as [<-|]; [|reflexivity].
  vm_compute in H. discriminate.
Qed.

Lemma startsWith_app p s : startsWith p s = true -> s = p ++ drop (length p) s.
Proof.
  revert s. induction p as [|a p IH]; intros [|b s] H; simpl in *; try done.
  apply andb_true_iff in H as [Hab H]. apply N.eqb_eq in Hab as ->.
  f_equal. by apply IH.
Qed.

Lemma find_sub_app pat s before after :
  find_sub pat s = Some (before, after) -> s = before ++ pat ++ after.
Proof.
  revert before after. induction s as [|c s IH]; intros before after; simpl.
  - destruct (startsWith pat []) eqn:E; [|done].
    intros [= <- <-]. by apply startsWith_app in E.
  - destruct (startsWith pat (c :: s)) eqn:E.
    + intros [= <- <-]. by apply startsWith_app in E.
    + destruct (find_sub pat s) as [[b a]|]; [|done].
      intros [= <- <-]. simpl. f_equal. by apply IH.
Qed.

Lemma find_sub_None_cons pat c s :
  find_sub pat (c :: s) = None -> find_sub pat s = None.
Proof.
  simpl. destruct (startsWith pat (c :: s)); [done|].
  by destruct (find_sub pat s) as [[??]|].
Qed.

Lemma find_sub_None_drop pat s n :
  find_sub pat s = None -> find_sub pat (drop n s) = None.
Proof.
  revert s. induction n as [|n IH]; intros s H; [by rewrite drop_0|].
  destruct s as [|c s]; [done|]. simpl. apply IH.
  by apply find_sub_None_cons in H.
Qed.

(** Leading white space holds no closing fence. *)
Lemma find_close_trimStart s :
  find_sub fence_close (trimStart s)
  = (fun '(b, a) => (trimStart b, a)) <$> find_sub fence_close s.
Proof.
  induction s as [|c s IH]; [done|].
  cbn [trimStart]. destruct (is_js_space c) eqn:Hc.
  - rewrite IH. cbn [find_sub]. rewrite (closing_fence_not_space _ _ Hc).
    destruct (find_sub fence_close s) as [[b a]|]; [|done].
    cbn. by rewrite Hc.
  - cbn [find_sub]. destruct (startsWith fence_close (c :: s)); [done|].
    destruct (find_sub fence_close s) as [[b a]|]; [|done].
    cbn. by rewrite Hc.
Qed.

Lemma trimStart_nil_forallb b :
  trimStart b = [] <-> forallb is_js_space b = true.
Proof.
  induction b as [|c b IH]; [done|]. simpl.
  destruct (is_js_space c); [done|]. split; discriminate.
Qed.

(** *** The matcher on the two iterations of the pattern *)

Lemma star_greedy_ext {R} cls s (k k' : JsString -> option R) :
  (forall x, k x = k' x) -> star_greedy cls s k = star_greedy cls s k'.
Proof.
  intros E. induction s as [|c s IH]; simpl; [apply E|].
  rewrite IH, E. done.
Qed.

(** When what follows cannot succeed right after a white space unless it
    succeeds without it, the greedy iteration settles on all the white
    space at once. *)
Lemma star_greedy_spaces {R} (k : JsString -> option R) s :
  (forall c s', is_js_space c = true -> k s' = None -> k (c :: s') = None) ->
  star_greedy is_js_space s k = k (trimStart s).
Proof.
  intros Hk.
  assert (Hback : forall t, k (trimStart t) = None -> k t = None).
  { induction t as [|c t IH]; [done|]. simpl.
    destruct (is_js_space c) eqn:Hc; [|done].
    intros H. apply Hk; auto. }
  induction s as [|c s IH]; [done|]. simpl.
  destruct (is_js_space c) eqn:Hc; [|done].
  rewrite IH. destruct (k (trimStart s)) eqn:E; [done|].
  apply Hk; auto.
Qed.

(** The lazy iteration of the class of all characters stops at the first
    place from which what follows succeeds. *)
Lemma star_lazy_split {R} (Q : JsString -> bool)
    (G : JsString -> JsString -> R) pre s (k : JsString -> option R) :
  (forall s2, (length s2 <= length s)%nat ->
     k s2 = if Q s2
            then Some (G (take (length (pre ++ s) - length s2) (pre ++ s)) s2)
            else None) ->
  star_lazy any_char s k = (fun '(p, r) => G (pre ++ p) r) <$> lazy_split Q s.
Proof.
  revert pre. induction s as [|c s IH]; intros pre Hk.
  - simpl. rewrite Hk by done. destruct (Q []); [|done].
    simpl. rewrite app_nil_r, Nat.sub_0_r, firstn_all. done.
  - cbn [star_lazy lazy_split]. rewrite Hk by done.
    destruct (Q (c :: s)) eqn:HQ.
    + simpl. rewrite app_nil_r. do 2 f_equal.
      rewrite length_app, Nat.add_sub. by rewrite take_app_length.
    + cbn [any_char]. rewrite (IH (pre ++ [c])).
      * destruct (lazy_split Q s) as [[p r]|]; [|done].
        simpl. by rewrite <- app_assoc.
      * intros s2 Hlen. rewrite Hk by (simpl; lia).
        by rewrite <- app_assoc.
Qed.

Lemma lazy_split_unfold Q s :
  lazy_split Q s =
  if Q s then Some ([], s)
  else match s with
       | c :: s' =>
           match lazy_split Q s' with
           | Some (p, r) => Some (c :: p, r)
           | None => None
           end
       | [] => None
       end.
Proof. by destruct s. Qed.

Lemma closes_space c s : is_js_space c = true -> closes (c :: s) = closes s.
Proof. intros H. unfold closes. simpl. by rewrite H. Qed.

Lemma closes_find s :
  closes s = true <->
  exists b a, find_sub fence_close s = Some (b, a) /\ forallb is_js_space b = true.
Proof.
  unfold closes. split.
  - intros H.
    assert (E : find_sub fence_close (trimStart s)
                = Some ([], drop 3 (trimStart s))).
    { destruct (trimStart s); simpl in *; [done|]. by rewrite H. }
    rewrite find_close_trimStart in E.
    destruct (find_sub fence_close s) as [[b a]|]; [|done].
    injection E as E1 E2. exists b, a. split; [done|].
    by apply trimStart_nil_forallb.
  - intros (b & a & E & Hb).
    pose proof (find_close_trimStart s) as F. rewrite E in F. simpl in F.
    apply trimStart_nil_forallb in Hb. rewrite Hb in F.
    apply find_sub_app in F. rewrite F. done.
Qed.

(** The lazy capture is the text before the closing fence, less its
    trailing white space. *)
Lemma lazy_split_find_close s :
  fst <$> lazy_split closes s = (trimEnd ∘ fst) <$> find_sub fence_close s.
Proof.
  induction s as [|c s IH]; [done|].
  cbn [lazy_split find_sub].
  destruct (startsWith fence_close (c :: s)) eqn:Hs.
  - assert (Hc : is_js_space c = false).
    { destruct (is_js_space c) eqn:Hc; [|done].
      by rewrite closing_fence_not_space in Hs. }
    unfold closes. cbn [trimStart]. rewrite Hc, Hs. done.
  - destruct (is_js_space c) eqn:Hc.
    + rewrite (closes_space _ _ Hc). destruct (closes s) eqn:HQ.
      * apply closes_find in HQ as (b & a & E & Hb). rewrite E. simpl.
        rewrite Hc, Hb. done.
      * destruct (find_sub fence_close s) as [[b a]|] eqn:E.
        -- assert (Hb : forallb is_js_space b = false).
           { destruct (forallb is_js_space b) eqn:Hb; [|done].
             assert (closes s = true) by (apply closes_find; eauto).
             congruence. }
           destruct (lazy_split closes s) as [[p r]|]; [|done].
           simpl in *. rewrite Hc, Hb. simpl. congruence.
        -- by destruct (lazy_split closes s) as [[p r]|].
    + assert (HQ : closes (c :: s) = false).
      { unfold closes. cbn [trimStart]. by rewrite Hc. }
      rewrite HQ.
      destruct (find_sub fence_close s) as [[b a]|] eqn:E;
        destruct (lazy_split closes s) as [[p r]|]; try done.
      simpl in *. rewrite Hc. simpl. congruence.
Qed.

(** *** The pattern at one place *)

Lemma match_here_block s :
  match_here jsonBlockRegex s =
  if startsWith fence_open s then
    (fun '(p, r) =>
       take (length s - length (drop (length fence_close) (trimStart r))) s :: [p])
    <$> lazy_split closes (trimStart (drop (length fence_open) s))
  else None.
Proof.
  unfold match_here, jsonBlockRegex. cbn [exec].
  destruct (startsWith fence_open s); [|done].
  set (after := drop (length fence_open) s).
  set (whole := fun r : JsString =>
         take (length s - length (drop (length fence_close) (trimStart r))) s).
  set (k1 := fun s1 : JsString =>
         (fun '(p, r) => whole r :: [p]) <$> lazy_split closes s1).
  transitivity (star_greedy is_js_space after k1).
  - apply star_greedy_ext. intros s1. unfold k1.
    apply (star_lazy_split closes (fun p r => whole r :: [p]) [] s1).
    intros s2 _. rewrite star_greedy_spaces.
    + unfold closes. by destruct (startsWith fence_close (trimStart s2)).
    + intros c s' Hc _. by rewrite closing_fence_not_space.
  - apply star_greedy_spaces. intros c s' Hc. unfold k1. intros Hnone.
    assert (HQ : closes s' = false).
    { destruct (closes s') eqn:HQ; [|done].
      by rewrite lazy_split_unfold, HQ in Hnone. }
    rewrite lazy_split_unfold, (closes_space _ _ Hc), HQ.
    by destruct (lazy_split closes s') as [[p r]|].
Qed.

Lemma match_here_capture s :
  match_here jsonBlockRegex s ≫= (fun m => m !! 1%nat) =
  if startsWith fence_open s
  then (trim ∘ fst) <$> find_sub fence_close (drop (length fence_open) s)
  else None.
Proof.
  rewrite match_here_block. destruct (startsWith fence_open s); [|done].
  set (after := drop (length fence_open) s).
  pose proof (lazy_split_find_close (trimStart after)) as E.
  rewrite find_close_trimStart in E.
  destruct (lazy_split closes (trimStart after)) as [[p r]|];
    destruct (find_sub fence_close after) as [[b a]|]; simpl in *.
  all: unfold trim; congruence.
Qed.

Lemma match_here_None s :
  match_here jsonBlockRegex s = None <->
  match_here jsonBlockRegex s ≫= (fun m => m !! 1%nat) = None.
Proof.
  rewrite match_here_block. destruct (startsWith fence_open s); [|done].
  by destruct (lazy_split closes _) as [[p r]|].
Qed.

(** *** The leftmost match *)

Lemma String_match_None r s :
  (forall n, match_here r (drop n s) = None) -> String_match r s = None.
Proof.
  induction s as [|c s IH]; intros H.
  - pose proof (H 0%nat) as H0. rewrite drop_0 in H0.
    cbn [String_match]. by rewrite H0.
  - pose proof (H 0%nat) as H0. rewrite drop_0 in H0.
    cbn [String_match]. rewrite H0. apply IH.
    intros n. apply (H (S n)).
Qed.

(** An opening fence that no closing fence follows rules out a match
    further on as well. *)
Lemma no_close_no_match s :
  find_sub fence_close (drop (length fence_open) s) = None ->
  String_match jsonBlockRegex s = None.
Proof.
  intros H. apply String_match_None. intros n.
  apply match_here_None. rewrite match_here_capture.
  destruct (startsWith fence_open (drop n s)); [|done].
  rewrite drop_drop, Nat.add_comm, <- drop_drop.
  by rewrite find_sub_None_drop.
Qed.

Lemma String_match_capture text :
  String_match jsonBlockRegex text ≫= (fun m => m !! 1%nat)
  = trim <$> fenced_body text.
Proof.
  unfold fenced_body. induction text as [|c text IH].
  - reflexivity.
  - cbn [String_match find_sub].
    pose proof (match_here_capture (c :: text)) as Hcap.
    pose proof (match_here_None (c :: text)) as Hnone.
    destruct (startsWith fence_open (c :: text)) eqn:Hopen.
    + destruct (find_sub fence_close (drop (length fence_open) (c :: text)))
        as [[b a]|] eqn:Hclose.
      * destruct (match_here jsonBlockRegex (c :: text)) as [m|]; [done|].
        simpl in Hcap. done.
      * pose proof (no_close_no_match _ Hclose) as Hno.
        cbn [String_match] in Hno.
        destruct (match_here jsonBlockRegex (c :: text)) as [m|]; [done|].
        by rewrite Hno.
    + destruct (match_here jsonBlockRegex (c :: text)) as [m|] eqn:Hm.
      { destruct Hnone as [_ Hn]. by specialize (Hn Hcap). }
      rewrite IH. by destruct (find_sub fence_open text) as [[??]|].
Qed.

Lemma extractJson_try_steps text :
  default JNull (extractJson_try text) = extractJson_steps text.
Proof.
  unfold extractJson_try, extractJson_steps.
  rewrite <- String_match_capture.
  destruct (String_match jsonBlockRegex text) as [m|]; cbn [mbind option_bind].
  - destruct (m !! 1%nat) as [[|c cs]|]; try done;
      by destruct (startsWith (str "{") (trim text)).
  - by destruct (startsWith (str "{") (trim text)).
Qed.
End ParserFacts.

(** C3 (amended). For every text, [extractJson] takes these three steps:
    when the text holds an opening json fence followed by a closing fence and
    the text between the first such pair, trimmed, is not empty, it parses
    that trimmed text; otherwise, when the trimmed text opens with a brace, it
    parses the whole text as it stands (not trimmed); otherwise, and whenever
    parsing fails, the result is null. *)
Theorem extractJson_three_steps (text : JsString) :
  extractJson text = extractJson_steps text.
Proof. apply extractJson_try_steps. Qed.

(** C3, as stated, fails: on a vertical tab followed by an empty object the
    specification parses the trimmed text, the code parses the text with the
    tab still in front, which [JSON.parse] refuses. *)
Lemma extractJson_spec_differs :
  let text := 11 :: str "{}" in
  fenced_body text = None
  /\ startsWith (str "{") (trim text) = true
  /\ extractJson_spec text = JObject ∅
  /\ extractJson text = JNull
  /\ extractJson text <> extractJson_spec text.
Proof. vm_compute. repeat split; discriminate. Qed.

(** ** Source deduplication *)

Section MapFacts.
Context {K V : Type} `{EqDecision K}.
Implicit Types (m entries : list (K * V)) (k : K) (v : V).

Lemma Map_set_keys m k v :
  (Map_set m k v).*1 = if decide (k ∈ m.*1) then m.*1 else m.*1 ++ [k].
Proof.
  induction m as [|[k' v'] m IH]; [done|]. cbn [Map_set].
  destruct (decide (k = k')) as [->|Hne].
  - rewrite decide_True by (simpl; left). done.
  - cbn [fmap list_fmap fst]. fold (fmap (M:=list) (@fst K V)). rewrite IH.
    destruct (decide (k ∈ m.*1)) as [Hin|Hin].
    + rewrite decide_True by (by right). done.
    + rewrite decide_False; [done|]. intros [?|?]%elem_of_cons; done.
Qed.

Lemma Map_set_NoDup m k v : NoDup m.*1 -> NoDup (Map_set m k v).*1.
Proof.
  intros H. rewrite Map_set_keys. destruct (decide (k ∈ m.*1)); [done|].
  apply NoDup_app. split_and!; [done| |apply NoDup_singleton].
  intros x Hx ->%list_elem_of_singleton. done.
Qed.

(** The entries after [set]: the new binding, and the old ones of the
    other keys. *)
Lemma elem_of_Map_set m k v k' v' :
  NoDup m.*1 ->
  (k', v') ∈ Map_set m k v ->
  (k' = k /\ v' = v) \/ (k' <> k /\ (k', v') ∈ m).
Proof.
  induction m as [|[k0 v0] m IH]; intros Hnd.
  - intros [= -> ->]%list_elem_of_singleton. by left.
  - apply NoDup_cons in Hnd as [Hk0 Hnd]. cbn [Map_set].
    destruct (decide (k = k0)) as [->|Hne].
    + intros [[= -> ->]|Hin]%elem_of_cons; [by left|].
      right. split; [|by right]. intros ->.
      apply Hk0. apply (list_elem_of_fmap_2 fst) in Hin. done.
    + intros [[= -> ->]|Hin]%elem_of_cons.
      * right. split; [done|by left].
      * destruct (IH Hnd Hin) as [?|[? ?]]; [by left|].
        right. split; [done|by right].
Qed.

Lemma Map_new_snoc entries k v :
  Map_new (entries ++ [(k, v)]) = Map_set (Map_new entries) k v.
Proof. unfold Map_new. by rewrite foldl_app. Qed.

Lemma Map_new_NoDup entries : NoDup (Map_new entries).*1.
Proof.
  induction entries as [|[k v] entries IH] using rev_ind.
  - apply NoDup_nil_2.
  - rewrite Map_new_snoc. by apply Map_set_NoDup.
Qed.

Lemma first_occurrences_cons (ks : list K) k :
  first_occurrences (k :: ks)
  = k :: filter (fun k' => k' <> k) (first_occurrences ks).
Proof. reflexivity. Qed.

Lemma elem_of_first_occurrences (ks : list K) k :
  k ∈ first_occurrences ks <-> k ∈ ks.
Proof.
  induction ks as [|k0 ks IH]; [done|]. rewrite first_occurrences_cons.
  rewrite !elem_of_cons, list_elem_of_filter, IH.
  destruct (decide (k = k0)); tauto.
Qed.

Lemma first_occurrences_snoc (ks : list K) k :
  first_occurrences (ks ++ [k]) =
  if decide (k ∈ ks) then first_occurrences ks else first_occurrences ks ++ [k].
Proof.
  induction ks as [|k0 ks IH].
  - rewrite decide_False by (apply not_elem_of_nil). done.
  - rewrite <- app_comm_cons, !first_occurrences_cons, IH.
    destruct (decide (k = k0)) as [->|Hne].
    + rewrite (decide_True (P := k0 ∈ k0 :: ks)) by left.
      destruct (decide (k0 ∈ ks)); [done|].
      rewrite filter_app, filter_cons_False by (intros ?; done).
      rewrite filter_nil. by rewrite app_nil_r.
    + destruct (decide (k ∈ ks)) as [Hin|Hin].
      * rewrite decide_True by (by right). done.
      * rewrite decide_False by (intros [?|?]%elem_of_cons; done).
        rewrite filter_app, filter_cons_True by done. done.
Qed.

(** The keys of a new map: those of the entries, each where it first
    appears. *)
Lemma Map_new_keys entries :
  (Map_new entries).*1 = first_occurrences entries.*1.
Proof.
  induction entries as [|[k v] entries IH] using rev_ind; [done|].
  rewrite Map_new_snoc, Map_set_keys, fmap_app.
  change ([(k, v)].*1) with [k]. rewrite first_occurrences_snoc, IH.
  destruct (decide (k ∈ entries.*1)) as [Hin|Hin].
  - rewrite decide_True; [done|]. by apply elem_of_first_occurrences.
  - rewrite decide_False; [done|]. by rewrite elem_of_first_occurrences.
Qed.

(** The value a new map holds for a key: that of the last entry with the
    key. *)
Lemma Map_new_last entries k v :
  (k, v) ∈ Map_new entries ->
  last (filter (fun e => e.1 = k) entries) = Some (k, v).
Proof.
  revert k v. induction entries as [|[k0 v0] entries IH] using rev_ind;
    intros k v.
  - by intros ?%elem_of_nil.
  - rewrite Map_new_snoc. intros Hin.
    apply elem_of_Map_set in Hin as [[-> ->]|[Hne Hin]];
      [| |apply Map_new_NoDup].
    + rewrite filter_app, filter_cons_True by done.
      rewrite filter_nil. by rewrite last_snoc.
    + rewrite filter_app, filter_cons_False by (simpl; congruence).
      rewrite filter_nil, app_nil_r. by apply IH.
Qed.
End MapFacts.

Lemma uniqueSources_uris sources :
  uri <$> uniqueSources sources = first_occurrences (uri <$> sources).
Proof.
  unfold uniqueSources, Map_values.
  set (entries := map (fun s => (uri s, s)) sources).
  assert (Hinv : Forall (fun e => e.1 = uri e.2) (Map_new entries)).
  { apply Forall_forall. intros [k v] Hin. apply Map_new_last in Hin.
    apply last_Some_elem_of, list_elem_of_filter in Hin as [_ Hin].
    apply list_elem_of_fmap in Hin as (s & [= -> ->] & _). done. }
  transitivity ((Map_new entries).*1).
  - induction Hinv as [|[k v] m Hkv _ IH]; [done|]. simpl in *. by f_equal.
  - rewrite Map_new_keys. f_equal. unfold entries.
    rewrite <- list_fmap_compose. done.
Qed.

Lemma uniqueSources_last sources s :
  s ∈ uniqueSources sources -> last_bearing (uri s) sources = Some s.
Proof.
  unfold uniqueSources, Map_values, last_bearing.
  intros ([k v] & -> & Hin)%list_elem_of_fmap. simpl.
  pose proof Hin as Hlast. apply Map_new_last in Hlast.
  assert (k = uri v) as ->.
  { apply last_Some_elem_of, list_elem_of_filter in Hlast as [_ H].
    apply list_elem_of_fmap in H as (s & [= -> ->] & _). done. }
  clear Hin. revert Hlast. generalize (uri v) as u. intros u.
  induction sources as [|s sources IH] using rev_ind; [done|].
  rewrite map_app, !filter_app. cbn [map].
  destruct (decide (uri s = u)) as [E|E].
  - rewrite !filter_cons_True by done. rewrite !filter_nil, !last_snoc.
    by intros [= _ ->].
  - rewrite !filter_cons_False by done. rewrite !filter_nil, !app_nil_r.
    apply IH.
Qed.

Lemma fetchCompanyData_returns response data :
  fetchCompanyData (Returns response) = Returns data ->
  let text := response_text response in
  truthy (extractJson text) = true
  /\ data = <[str "sources" :=
               JArray (source_to_js <$>
                 uniqueSources (chunks_sources (response_groundingChunks response)))]>
            (own_props (extractJson text)).
Proof.
  unfold fetchCompanyData. cbv zeta.
  destruct (truthy (extractJson _)); simpl; [|done].
  by intros [= <-].
Qed.

(** C1 (amended). Whenever [fetchCompanyData] returns, the [sources] of the
    record are the citations of the response deduplicated by uri: the uris
    are those of the citations in the order in which each first appears, and
    the source retained for a uri is the last citation that bears it (it
    takes the place of the first). In particular the citations a, b, a,
    given by their uri alone, yield a, b in that order. *)
Theorem fetchCompanyData_sources response data :
  fetchCompanyData (Returns response) = Returns data ->
  let sources := chunks_sources (response_groundingChunks response) in
  data !! str "sources" = Some (JArray (source_to_js <$> uniqueSources sources))
  /\ uri <$> uniqueSources sources = first_occurrences (uri <$> sources)
  /\ (forall s, s ∈ uniqueSources sources -> last_bearing (uri s) sources = Some s)
  /\ uniqueSources [cite "a"; cite "b"; cite "a"] = [cite "a"; cite "b"].
Proof.
  intros Hret sources. apply fetchCompanyData_returns in Hret as [_ ->].
  split_and!.
  - apply lookup_insert_eq.
  - apply uniqueSources_uris.
  - apply uniqueSources_last.
  - reflexivity.
Qed.

Lemma fetchCompanyData_sources_witness :
  fetchCompanyData (Returns aba_response)
  = Returns (<[str "sources" := JArray (source_to_js <$> [cite "a"; cite "b"])]> ∅)
  /\ (<[str "sources" := JArray (source_to_js <$> [cite "a"; cite "b"])]> ∅ : Obj)
       !! str "sources"
     = Some (JArray (source_to_js <$>
               uniqueSources (chunks_sources (response_groundingChunks aba_response)))).
Proof.
  assert (H : fetchCompanyData (Returns aba_response)
              = Returns (<[str "sources" :=
                            JArray (source_to_js <$> [cite "a"; cite "b"])]> ∅)).
  { vm_compute. reflexivity. }
  split; [exact H|].
  exact (proj1 (fetchCompanyData_sources aba_response _ H)).
Defined.

(** C1, as stated, fails: of two citations of the uri a, the one retained is
    the later one, with its title, not the first. *)
Lemma fetchCompanyData_keeps_last_citation :
  let response :=
    cited_response [web_chunk "first" "a"; web_chunk "other" "b"; web_chunk "later" "a"]
      "```json {} ```" in
  let first := {| title := Some (str "first"); uri := Some (str "a") |} in
  let other := {| title := Some (str "other"); uri := Some (str "b") |} in
  let later := {| title := Some (str "later"); uri := Some (str "a") |} in
  chunks_sources (response_groundingChunks response) = [first; other; later]
  /\ dedup_first_wins [first; other; later] = [first; other]
  /\ fetchCompanyData (Returns response)
     = Returns (<[str "sources" := JArray (source_to_js <$> [later; other])]> ∅)
  /\ fetchCompanyData (Returns response)
     <> Returns (<[str "sources" :=
                   JArray (source_to_js <$> dedup_first_wins [first; other; later])]> ∅).
Proof.
  cbv zeta. split_and!; try (vm_compute; reflexivity).
  vm_compute. discriminate.
Qed.

(** ** The conversational session *)

Section SessionFacts.
Context {S : Type} (onUpdate : JsValue -> S -> S).
Implicit Types (w : World S) (script : list (Completion ChatResponse))
  (response : ChatResponse) (calls : list FunctionCall).

Local Abbreviation loop := (tool_loop onUpdate).
Local Abbreviation calls_loop := (run_calls onUpdate).
Local Abbreviation send := (sendMessage onUpdate).

(** The [for] loop: the callback on the arguments of each recognized call,
    in order, and one acknowledgment for each. *)
Lemma run_calls_recognized calls w acc :
  calls_loop calls w acc =
  ({| app := foldl (fun st call => onUpdate (fc_args call) st) (app w)
               (recognized calls);
      events := events w ++ (Updated ∘ fc_args <$> recognized calls) |},
   acc ++ (acknowledgment <$> recognized calls)).
Proof.
  revert w acc. induction calls as [|call calls IH]; intros w acc.
  - destruct w. simpl. by rewrite !app_nil_r.
  - cbn [run_calls]. unfold recognized. 
    destruct (decide (fc_name call = Some update_company_data)) as [E|E].
    + rewrite filter_cons_True by done. rewrite IH. simpl.
      by rewrite <- !app_assoc.
    + rewrite filter_cons_False by done. by rewrite IH.
Qed.

Lemma tool_loop_no_calls script response w :
  functionCalls response = None \/ functionCalls response = Some [] ->
  loop script response w = (w, Resolved (final_text response)).
Proof. destruct script; intros [E|E]; simpl; by rewrite E. Qed.

Lemma tool_loop_unfold script response w :
  loop script response w =
  match functionCalls response with
  | Some (call :: calls) =>
      let '(w1, functionResponses) := calls_loop (call :: calls) w [] in
      match functionResponses with
      | _ :: _ =>
          let w2 := emit (Sent (ToolResults functionResponses)) w1 in
          match script with
          | [] => (w2, Pending)
          | Throws e :: _ => (emit (Received (Throws e)) w2, Resolved error_reply)
          | Returns response' :: script' =>
              loop script' response' (emit (Received (Returns response')) w2)
          end
      | [] => (w1, Resolved (final_text response))
      end
  | _ => (w, Resolved (final_text response))
  end.
Proof. by destruct script. Qed.

(** The loop gives the same result from an iteration and from the one
    that follows it. *)
Lemma next_iteration_run it it' :
  next_iteration onUpdate it = Some it' ->
  run_from onUpdate it = run_from onUpdate it'.
Proof.
  destruct it as [[script response] w]. unfold next_iteration, run_from.
  rewrite tool_loop_unfold.
  destruct (functionCalls response) as [[|call calls]|]; try done.
  destruct (calls_loop (call :: calls) w []) as [w1 [|fr frs]]; try done.
  destruct script as [|[response'|e] script']; try done.
  by intros [= <-].
Qed.

Lemma in_turn_run message script w it :
  in_turn onUpdate message script w it ->
  send message script w = run_from onUpdate it.
Proof.
  intros (it0 & Hfirst & Hsteps).
  transitivity (run_from onUpdate it0).
  - destruct script as [|[response|e] script']; try done.
    injection Hfirst as <-. reflexivity.
  - clear Hfirst. induction Hsteps as [|a b c Hab _ IH]; [done|].
    rewrite <- IH. by apply next_iteration_run.
Qed.

Lemma tool_loop_calls script response w call calls :
  functionCalls response = Some (call :: calls) ->
  loop script response w =
  let w1 := {| app := foldl (fun st c => onUpdate (fc_args c) st) (app w)
                        (recognized (call :: calls));
               events := events w
                         ++ (Updated <$> (fc_args <$> recognized (call :: calls))) |} in
  match acknowledgment <$> recognized (call :: calls) with
  | [] => (w1, Resolved (final_text response))
  | acks =>
      let w2 := emit (Sent (ToolResults acks)) w1 in
      match script with
      | [] => (w2, Pending)
      | Throws e :: _ => (emit (Received (Throws e)) w2, Resolved error_reply)
      | Returns response' :: script' =>
          loop script' response' (emit (Received (Returns response')) w2)
      end
  end.
Proof.
  intros E. rewrite tool_loop_unfold, E, run_calls_recognized.
  rewrite app_nil_l, list_fmap_compose. cbv zeta.
  by destruct (acknowledgment <$> recognized (call :: calls)).
Qed.

(** The loop only adds to the events. *)
Lemma tool_loop_events script response w :
  exists rest, events (loop script response w).1 = events w ++ rest.
Proof.
  revert response w. induction script as [|reply script IH]; intros response w;
    (destruct (functionCalls response) as [[|call calls]|] eqn:E;
     [rewrite tool_loop_no_calls by auto; exists []; by rewrite app_nil_r
     |rewrite (tool_loop_calls _ _ _ _ _ E); cbv zeta
     |rewrite tool_loop_no_calls by auto; exists []; by rewrite app_nil_r]);
    destruct (acknowledgment <$> recognized (call :: calls)) as [|fr frs];
    simpl; eauto.
  - rewrite <- app_assoc. eauto.
  - destruct reply as [response'|e].
    + match goal with |- context [loop script response' ?w2] =>
        destruct (IH response' w2) as [rest Hrest] end.
      rewrite Hrest. simpl. rewrite <- !app_assoc. eauto.
    + simpl. rewrite <- !app_assoc. eauto.
Qed.

Lemma call_failed_app evs evs' :
  call_failed (evs ++ evs') <-> call_failed evs \/ call_failed evs'.
Proof.
  unfold call_failed. setoid_rewrite elem_of_app. split.
  - intros [e [?|?]]; eauto.
  - intros [[e ?]|[e ?]]; eauto.
Qed.

Lemma updates_not_failed (args : list JsValue) :
  ~ call_failed (Updated <$> args).
Proof. intros [e (a & ? & _)%list_elem_of_fmap]. done. Qed.

Lemma sent_not_failed m : ~ call_failed [Sent m].
Proof. intros [e ?%list_elem_of_singleton]. done. Qed.

Lemma reply_not_failed response : ~ call_failed [Received (Returns response)].
Proof. intros [e ?%list_elem_of_singleton]. done. Qed.

(** The loop never rejects, and answers a failure of the dialogue with the
    fixed reply. *)
Lemma tool_loop_failure script response w :
  ~ call_failed (events w) ->
  is_rejected (loop script response w).2 = false
  /\ (call_failed (events (loop script response w).1) ->
      (loop script response w).2 = Resolved error_reply).
Proof.
  revert response w. induction script as [|reply script IH]; intros response w Hw;
    (destruct (functionCalls response) as [[|call calls]|] eqn:E;
     [by rewrite tool_loop_no_calls by auto
     |rewrite (tool_loop_calls _ _ _ _ _ E); cbv zeta
     |by rewrite tool_loop_no_calls by auto]);
    destruct (acknowledgment <$> recognized (call :: calls)) as [|fr frs];
    simpl.
  - split; [done|].
    intros [?|?%updates_not_failed]%call_failed_app; done.
  - split; [done|].
    intros [[?|?%updates_not_failed]%call_failed_app
           |?%sent_not_failed]%call_failed_app; done.
  - split; [done|].
    intros [?|?%updates_not_failed]%call_failed_app; done.
  - destruct reply as [response'|e]; [|done].
    apply IH. simpl.
    intros [[[?|?%updates_not_failed]%call_failed_app
            |?%sent_not_failed]%call_failed_app
           |?%reply_not_failed]%call_failed_app; done.
Qed.
End SessionFacts.

Lemma start_not_failed {S} (st : S) : ~ call_failed (events (start st)).
Proof. intros [e H]. by apply elem_of_nil in H. Qed.

(** C2 (amended). [sendMessage] never fails: in every turn its promise is
    resolved or still pending, never rejected; and when a call to the dialogue
    fails at any point of the turn, the failure is caught and the turn
    resolves, as a normal result, to the fixed string "I encountered an error
    processing your request.". *)
Theorem sendMessage_failure_reply {S} (onUpdate : JsValue -> S -> S)
    (message : JsString) (script : list (Completion ChatResponse)) (w : World S) :
  ~ call_failed (events w) ->
  is_rejected (sendMessage onUpdate message script w).2 = false
  /\ (call_failed (events (sendMessage onUpdate message script w).1) ->
      (sendMessage onUpdate message script w).2 = Resolved error_reply).
Proof.
  intros Hw. destruct script as [|[response|e] script']; simpl.
  - split; [done|].
    intros [?|?%sent_not_failed]%call_failed_app; done.
  - apply tool_loop_failure. simpl.
    intros [[?|?%sent_not_failed]%call_failed_app
           |?%reply_not_failed]%call_failed_app; done.
  - done.
Qed.

Lemma sendMessage_failure_reply_witness :
  (sendMessage handleDataUpdate (str "add the merger")
     [Returns (calls_reply [update_call "1" new_timeline]); Throws (Error (str "quota"))]
     (start (Some ∅))).2
  = Resolved error_reply.
Proof.
  apply (sendMessage_failure_reply handleDataUpdate (str "add the merger")
           [Returns (calls_reply [update_call "1" new_timeline]);
            Throws (Error (str "quota"))] (start (Some ∅))).
  - apply start_not_failed.
  - exists (Error (str "quota")). vm_compute.
    apply list_elem_of_In. do 4 right. left. reflexivity.
Defined.

(** C2, as stated, fails: when the first call to the dialogue fails, the
    turn is not rejected; it resolves to a string like any other reply. *)
Lemma sendMessage_failure_is_not_rejected :
  let turn := sendMessage handleDataUpdate (str "hello")
                [Throws (Error (str "network"))] (start (Some ∅)) in
  events turn.1 = [Sent (UserText (str "hello"));
                   Received (Throws (Error (str "network")))]
  /\ turn.2 = Resolved (str "I encountered an error processing your request.")
  /\ is_rejected turn.2 = false.
Proof. vm_compute. done. Qed.

(** C4 (amended). When the first reply requests no tool, the turn is one
    round-trip, without any call of the callback; when the first reply
    requests one [update_company_data] and the reply to the acknowledgment
    requests no tool, the callback is called once, with the arguments of the
    request, before the acknowledgment, and the turn is two round-trips. In
    both cases the turn returns the text of the last reply when that text is
    not empty, and "I updated the information." when the reply has no text or
    an empty one. *)
Theorem sendMessage_round_trips {S} (onUpdate : JsValue -> S -> S)
    (message : JsString) (script : list (Completion ChatResponse)) (w : World S) :
  (forall response,
     functionCalls response = None \/ functionCalls response = Some [] ->
     sendMessage onUpdate message (Returns response :: script) w
     = ({| app := app w;
           events := events w ++ [Sent (UserText message);
                                  Received (Returns response)] |},
        Resolved (final_text response)))
  /\ (forall call r1 r2,
        functionCalls r1 = Some [call] ->
        fc_name call = Some update_company_data ->
        functionCalls r2 = None \/ functionCalls r2 = Some [] ->
        sendMessage onUpdate message (Returns r1 :: Returns r2 :: script) w
        = ({| app := onUpdate (fc_args call) (app w);
              events := events w ++ [Sent (UserText message);
                                     Received (Returns r1);
                                     Updated (fc_args call);
                                     Sent (ToolResults [acknowledgment call]);
                                     Received (Returns r2)] |},
           Resolved (final_text r2)))
  /\ (forall response c t,
        chat_text response = Some (c :: t) -> final_text response = c :: t)
  /\ (forall response,
        chat_text response = None \/ chat_text response = Some [] ->
        final_text response = default_reply).
Proof.
  split_and!.
  - intros response Hnone. cbn [sendMessage].
    rewrite tool_loop_no_calls by done. unfold emit. simpl.
    by rewrite <- app_assoc.
  - intros call r1 r2 E1 Hname Hnone. cbn [sendMessage].
    rewrite (tool_loop_calls _ _ _ _ _ _ E1). unfold recognized.
    rewrite filter_cons_True by done. rewrite filter_nil. cbv zeta. simpl.
    rewrite tool_loop_no_calls by done. unfold emit. simpl.
    by rewrite <- !app_assoc.
  - intros response c t E. unfold final_text. by rewrite E.
  - intros response [E|E]; unfold final_text; by rewrite E.
Qed.

Lemma sendMessage_round_trips_witness :
  sendMessage handleDataUpdate (str "add the merger")
    [Returns (calls_reply [update_call "1" new_timeline]);
     Returns (text_reply "Done.")] (start (Some ∅))
  = ({| app := Some {[ str "timeline" := JArray [] ]};
        events := [Sent (UserText (str "add the merger"));
                   Received (Returns (calls_reply [update_call "1" new_timeline]));
                   Updated new_timeline;
                   Sent (ToolResults [acknowledgment (update_call "1" new_timeline)]);
                   Received (Returns (text_reply "Done."))] |},
     Resolved (str "Done.")).
Proof.
  exact (proj1 (proj2 (sendMessage_round_trips handleDataUpdate
                  (str "add the merger") [] (start (Some ∅))))
           (update_call "1" new_timeline)
           (calls_reply [update_call "1" new_timeline]) (text_reply "Done.")
           eq_refl eq_refl (or_introl eq_refl)).
Defined.

(** C4, as stated, fails: a first reply that requests no tool and whose text
    is empty is answered with the stock sentence, not with its text. *)
Lemma sendMessage_empty_text_default :
  let reply := {| chat_text := Some []; functionCalls := Some [] |} in
  let turn := sendMessage handleDataUpdate (str "hello") [Returns reply]
                (start (Some ∅)) in
  events turn.1 = [Sent (UserText (str "hello")); Received (Returns reply)]
  /\ turn.2 = Resolved (str "I updated the information.")
  /\ turn.2 <> Resolved [].
Proof. vm_compute. split_and!; done. Qed.

(** C5. In a turn, on every iteration whose response requests tools none of
    which is [update_company_data], the loop ends there: the turn returns
    with the world as it was on entering the iteration, so the callback was
    not called and nothing was sent to the dialogue. *)
Theorem sendMessage_unknown_tools_stop {S} (onUpdate : JsValue -> S -> S)
    (message : JsString) (script script_i : list (Completion ChatResponse))
    (w w_i : World S) (response : ChatResponse) (call : FunctionCall)
    (calls : list FunctionCall) :
  in_turn onUpdate message script w (script_i, response, w_i) ->
  functionCalls response = Some (call :: calls) ->
  recognized (call :: calls) = [] ->
  sendMessage onUpdate message script w = (w_i, Resolved (final_text response)).
Proof.
  intros Hin E Hnone. rewrite (in_turn_run _ _ _ _ _ Hin). unfold run_from.
  rewrite (tool_loop_calls _ _ _ _ _ _ E), Hnone. cbv zeta. simpl.
  destruct w_i. simpl. by rewrite app_nil_r.
Qed.

Lemma onUpdateData_queues (updates : list JsValue) (h : DataHook) :
  foldl (fun st args => onUpdateData args st) h updates
  = {| rendered := rendered h;
       queued := queued h ++ (handleDataUpdate <$> updates) |}.
Proof.
  revert h. induction updates as [|args updates IH]; intros h.
  - destruct h. simpl. by rewrite app_nil_r.
  - cbn [foldl]. rewrite IH. simpl. by rewrite <- app_assoc.
Qed.

(** C6 (amended). In a turn, on every iteration whose response requests
    [update_company_data], the callback is called for each such request, in
    order, and only then is the batch of their acknowledgments sent. The
    callback of the application does not apply an update: it queues it, so
    that the data rendered are, when the acknowledgments are sent, what they
    were before the calls; the next render applies the queued updates, in the
    order of the calls. *)
Theorem sendMessage_update_queued_before_acknowledgment :
  (forall (S : Type) (onUpdate : JsValue -> S -> S) (message : JsString)
          (script script_i : list (Completion ChatResponse)) (w w_i : World S)
          (response : ChatResponse) (calls : list FunctionCall),
     in_turn onUpdate message script w (script_i, response, w_i) ->
     functionCalls response = Some calls ->
     recognized calls <> [] ->
     let at_send := (run_calls onUpdate calls w_i []).1 in
     let functionResponses := (run_calls onUpdate calls w_i []).2 in
     events at_send = events w_i ++ (Updated <$> (fc_args <$> recognized calls))
     /\ app at_send
        = foldl (fun st args => onUpdate args st) (app w_i)
            (fc_args <$> recognized calls)
     /\ functionResponses = acknowledgment <$> recognized calls
     /\ exists rest,
          events (sendMessage onUpdate message script w).1
          = events at_send ++ Sent (ToolResults functionResponses) :: rest)
  /\ (forall (updates : list JsValue) (h : DataHook),
        let at_send := foldl (fun st args => onUpdateData args st) h updates in
        rendered at_send = rendered h
        /\ queued at_send = queued h ++ (handleDataUpdate <$> updates)
        /\ rendered (render at_send)
           = foldl (fun prev args => handleDataUpdate args prev)
               (rendered (render h)) updates).
Proof.
  split.
  - intros S onUpdate message script script_i w w_i response calls Hin E Hsome.
    cbv zeta. rewrite run_calls_recognized. cbn [fst snd app events].
    rewrite list_fmap_compose, foldl_fmap, app_nil_l.
    split; [done|]. split; [done|]. split; [done|].
    rewrite (in_turn_run _ _ _ _ _ Hin). unfold run_from.
    destruct calls as [|call calls]; [done|].
    rewrite (tool_loop_calls _ _ _ _ _ _ E). cbv zeta.
    destruct (recognized (call :: calls)) as [|c cs]; [done|].
    cbn [fmap list_fmap].
    destruct script_i as [|[response'|e] script'].
    + exists []. reflexivity.
    + match goal with |- context [tool_loop onUpdate script' response' ?w2] =>
        destruct (tool_loop_events onUpdate script' response' w2) as [rest Hrest] end.
      exists (Received (Returns response') :: rest). rewrite Hrest. simpl.
      by rewrite <- !app_assoc.
    + exists [Received (Throws e)]. simpl. by rewrite <- !app_assoc.
  - intros updates h. cbv zeta. rewrite onUpdateData_queues.
    split; [done|]. split; [done|].
    cbn [render rendered queued]. by rewrite foldl_app, foldl_fmap.
Qed.

Lemma sendMessage_unknown_tools_stop_witness :
  sendMessage handleDataUpdate (str "add the merger") merger_turn (start (Some ∅))
  = (after_first_update, Resolved default_reply).
Proof.
  apply (sendMessage_unknown_tools_stop handleDataUpdate (str "add the merger")
           merger_turn [Returns (text_reply "never read")] (start (Some ∅))
           after_first_update (calls_reply [other_call "delete_everything" "2"])
           (other_call "delete_everything" "2") []).
  - eexists. split; [reflexivity|]. apply rtc_once. vm_compute. reflexivity.
  - reflexivity.
  - vm_compute. reflexivity.
Defined.

Lemma sendMessage_update_queued_before_acknowledgment_witness :
  let at_send := (run_calls onUpdateData [merger_request] merger_requested []).1 in
  events at_send = events merger_requested ++ [Updated (fc_args merger_request)]
  /\ rendered (app at_send) = Some acme
  /\ exists rest,
       events (sendMessage onUpdateData (str "add the merger") merger_dialogue
                 (start {| rendered := Some acme; queued := [] |})).1
       = events at_send ++ Sent (ToolResults [acknowledgment merger_request]) :: rest.
Proof.
  destruct (proj1 sendMessage_update_queued_before_acknowledgment
              DataHook onUpdateData (str "add the merger") merger_dialogue
              (tail merger_dialogue)
              (start {| rendered := Some acme; queued := [] |})
              merger_requested (calls_reply [merger_request]) [merger_request])
    as (Hevents & Happ & Hacks & Hsent).
  - eexists. split; [reflexivity|]. apply rtc_refl.
  - reflexivity.
  - vm_compute. discriminate.
  - split; [exact Hevents|]. split; [by rewrite Happ|].
    rewrite Hacks in Hsent. exact Hsent.
Defined.

(** C6, as stated, fails: when the acknowledgment of a request to replace
    the timeline is sent, the callback has been called, and the record that
    the application holds has the timeline it had; the timeline of the request
    comes with the next render. *)
Lemma acknowledgment_sent_before_update_applied :
  let at_send := (run_calls onUpdateData [merger_request] merger_requested []).1 in
  events (sendMessage onUpdateData (str "add the merger") merger_dialogue
            (start {| rendered := Some acme; queued := [] |})).1
  = events at_send ++ [Sent (ToolResults [acknowledgment merger_request]);
                       Received (Returns (text_reply "Done."))]
  /\ events at_send = [Sent (UserText (str "add the merger"));
                       Received (Returns (calls_reply [merger_request]));
                       Updated (fc_args merger_request)]
  /\ rendered (app at_send) = Some acme
  /\ acme !! str "timeline" = Some (JArray [founding_event])
  /\ rendered (render (app at_send))
     = Some (<[str "timeline" := JArray [merger_event]]> acme)
  /\ JArray [founding_event] <> JArray [merger_event].
Proof. vm_compute. split_and!; try reflexivity. discriminate. Qed.

(** ** The data state *)

(** C8. On a record that is loaded, an update that holds a timeline alone
    replaces the timeline by the one supplied and leaves structure, sources,
    companyName and summary as they were; more generally a property that an
    update does not hold is left as it was. *)
Theorem handleDataUpdate_timeline_only (p : Obj) (v : JsValue) :
  handleDataUpdate (JObject {[ str "timeline" := v ]}) (Some p)
  = Some (<[str "timeline" := v]> p)
  /\ (<[str "timeline" := v]> p) !! str "timeline" = Some v
  /\ (forall k, k ∈ [str "structure"; str "sources"; str "companyName"; str "summary"] ->
        (<[str "timeline" := v]> p) !! k = p !! k)
  /\ (forall updates k, own_props updates !! k = None ->
        exists p', handleDataUpdate updates (Some p) = Some p' /\ p' !! k = p !! k).
Proof.
  split_and!.
  - unfold handleDataUpdate, spread2. cbn [own_props].
    by rewrite insert_union_singleton_l.
  - apply lookup_insert_eq.
  - intros k Hk. apply lookup_insert_ne. intros <-.
    vm_compute in Hk. by repeat (apply elem_of_cons in Hk as [Hk|Hk]; [|]);
      try discriminate; apply elem_of_nil in Hk.
  - intros updates k Hk. eexists. split; [reflexivity|].
    unfold spread2. cbn [own_props]. rewrite lookup_union_r; done.
Qed.

Lemma handleDataUpdate_timeline_only_witness :
  (<[str "timeline" := JArray [merger_event]]> acme) !! str "structure"
  = acme !! str "structure".
Proof.
  apply (proj1 (proj2 (proj2
           (handleDataUpdate_timeline_only acme (JArray [merger_event]))))).
  apply list_elem_of_In. left. reflexivity.
Defined.

(** C10. While no record is loaded, an update leaves the state null,
    whatever it holds. *)
Theorem handleDataUpdate_null (updates : JsValue) :
  handleDataUpdate updates None = None.
Proof. reflexivity. Qed.

(** C7 (amended). The category of a timeline event is not checked on either
    path. [fetchCompanyData] returns the timeline exactly as the response
    parser read it; in a chat turn the callback is called on the arguments of
    each [update_company_data] request as they came, and [handleDataUpdate]
    stores the timeline they hold as it is. *)
Theorem category_passes_unchecked :
  (forall response data,
     fetchCompanyData (Returns response) = Returns data ->
     data !! str "timeline"
     = own_props (extractJson (response_text response)) !! str "timeline")
  /\ (forall (S : Type) (onUpdate : JsValue -> S -> S) calls (w : World S),
        app (run_calls onUpdate calls w []).1
        = foldl (fun st call => onUpdate (fc_args call) st) (app w) (recognized calls))
  /\ (forall updates (p : Obj) timeline,
        own_props updates !! str "timeline" = Some timeline ->
        exists p', handleDataUpdate updates (Some p) = Some p'
                   /\ p' !! str "timeline" = Some timeline).
Proof.
  split_and!.
  - intros response data Hret. apply fetchCompanyData_returns in Hret as [_ ->].
    by apply lookup_insert_ne.
  - intros S onUpdate calls w. by rewrite run_calls_recognized.
  - intros updates p timeline Hup. eexists. split; [reflexivity|].
    unfold spread2. cbn [own_props]. by apply lookup_union_Some_l.
Qed.

Lemma category_passes_unchecked_witness :
  exists p', handleDataUpdate (JObject {[ str "timeline" := JArray [merger_event] ]})
               (Some acme) = Some p'
             /\ p' !! str "timeline" = Some (JArray [merger_event]).
Proof.
  apply (proj2 (proj2 category_passes_unchecked)
           (JObject {[ str "timeline" := JArray [merger_event] ]}) acme
           (JArray [merger_event])).
  vm_compute. reflexivity.
Defined.

(** C7, as stated, fails: an event whose category is merger comes out of
    [fetchCompanyData] as it went in, and comes into the data state of a chat
    turn as it went in. *)
Lemma unknown_category_reaches_data :
  fetchCompanyData (Returns merger_response)
  = Returns {[ str "companyName" := JString (str "Acme");
               str "timeline" := JArray [merger_event];
               str "sources" := JArray [] ]}
  /\ timeline_categories_valid (JArray [merger_event]) = false
  /\ app (sendMessage handleDataUpdate (str "add the merger")
            [Returns (calls_reply
               [update_call "1" (JObject {[ str "timeline" := JArray [merger_event] ]})]);
             Returns (text_reply "Done.")] (start (Some acme))).1
     = Some (<[str "timeline" := JArray [merger_event]]> acme).
Proof. split_and!; vm_compute; reflexivity. Qed.

(** * Further properties *)

(** ** The response parser, whatever surrounds the block *)

Section FenceFacts.
Local Abbreviation fence_open := (str "```json").
Local Abbreviation fence_close := (str "```").

Lemma startsWith_prefix p s : startsWith p (p ++ s) = true.
Proof. induction p as [|a p IH]; [done|]. simpl. by rewrite N.eqb_refl. Qed.

Lemma startsWith_other_head a p b s : a <> b -> startsWith (a :: p) (b :: s) = false.
Proof. intros H. simpl. by apply N.eqb_neq in H as ->. Qed.

(** A pattern is first found right after a text that does not hold its
    first character. *)
Lemma find_sub_after a p pre rest :
  Forall (fun c => c <> a) pre ->
  find_sub (a :: p) (pre ++ (a :: p) ++ rest) = Some (pre, rest).
Proof.
  induction 1 as [|c pre Hc _ IH].
  - change ([] ++ (a :: p) ++ rest) with ((a :: p) ++ rest).
    destruct ((a :: p) ++ rest) as [|x xs] eqn:E; [done|].
    cbn [find_sub]. rewrite <- E, startsWith_prefix.
    by rewrite drop_app_length.
  - change ((c :: pre) ++ (a :: p) ++ rest) with (c :: (pre ++ (a :: p) ++ rest)).
    cbn [find_sub]. rewrite startsWith_other_head by done. by rewrite IH.
Qed.

Lemma fenced_body_between pre body post :
  Forall (fun c => c <> 96) pre ->
  Forall (fun c => c <> 96) body ->
  fenced_body (pre ++ fence_open ++ body ++ fence_close ++ post) = Some body.
Proof.
  intros Hpre Hbody. unfold fenced_body.
  change (str "```json") with (96 :: str "``json").
  change (str "```") with (96 :: str "``").
  rewrite (find_sub_after 96 (str "``json") pre _ Hpre).
  by rewrite (find_sub_after 96 (str "``") body post Hbody).
Qed.
End FenceFacts.

(** X1. A fenced block is read whatever prose surrounds it: when neither the
    text before the opening fence nor the contents hold a backtick, and the
    contents are not blank, [extractJson] gives what [JSON.parse] makes of the
    trimmed contents, or null when it throws; what follows the closing fence,
    further blocks included, plays no part. *)
Theorem extractJson_ignores_surrounding_prose (pre body post : JsString) :
  Forall (fun c => c <> 96) pre ->
  Forall (fun c => c <> 96) body ->
  trim body <> [] ->
  extractJson (pre ++ str "```json" ++ body ++ str "```" ++ post)
  = default JNull (JSON.parse (trim body)).
Proof.
  intros Hpre Hbody Hne.
  etransitivity; [apply extractJson_try_steps|]. unfold extractJson_steps.
  rewrite fenced_body_between by done. simpl.
  by destruct (trim body).
Qed.

Lemma extractJson_ignores_surrounding_prose_witness :
  extractJson (str "Here: " ++ str "```json" ++ qstr " {'a': 1} " ++ str "```"
               ++ str " and ```json [2] ```")
  = default JNull (JSON.parse (trim (qstr " {'a': 1} "))).
Proof.
  apply (extractJson_ignores_surrounding_prose (str "Here: ") (qstr " {'a': 1} ")
           (str " and ```json [2] ```")).
  - vm_compute. repeat constructor; discriminate.
  - vm_compute. repeat constructor; discriminate.
  - vm_compute. discriminate.
Defined.

(** ** The query service *)

(** X2. A response that holds no complete fenced block and whose trimmed
    text does not open with a brace makes [fetchCompanyData] fail with the
    parse error, whatever citations come with it; so does a response whose
    text is absent or empty. *)
Theorem fetchCompanyData_plain_prose_fails (response : GenerateContentResponse) :
  (fenced_body (response_text response) = None ->
   startsWith (str "{") (trim (response_text response)) = false ->
   fetchCompanyData (Returns response) = Throws parse_failure)
  /\ (text response = None \/ text response = Some [] ->
      fetchCompanyData (Returns response) = Throws parse_failure).
Proof.
  assert (Hplain : fenced_body (response_text response) = None ->
                   startsWith (str "{") (trim (response_text response)) = false ->
                   fetchCompanyData (Returns response) = Throws parse_failure).
  { intros Hno Hbrace. unfold fetchCompanyData. cbv zeta.
    replace (extractJson (response_text response)) with JNull; [done|].
    symmetry. etransitivity; [apply extractJson_try_steps|].
    unfold extractJson_steps. by rewrite Hno, Hbrace. }
  split; [exact Hplain|].
  intros Hempty. apply Hplain; unfold response_text;
    destruct Hempty as [-> | ->]; reflexivity.
Qed.

Lemma fetchCompanyData_plain_prose_fails_witness :
  fetchCompanyData
    (Returns (cited_response [web_chunk "About" "https://a.example"]
                "I could not find that company."))
  = Throws parse_failure.
Proof.
  apply (proj1 (fetchCompanyData_plain_prose_fails
                  (cited_response [web_chunk "About" "https://a.example"]
                     "I could not find that company."))).
  - vm_compute. reflexivity.
  - vm_compute. reflexivity.
Defined.

(** X3. The record that [fetchCompanyData] returns holds the properties of
    the parsed value and [sources], nothing else: every property other than
    [sources] is the parsed one, untouched, none is required, and [sources] is
    the array of the citations of the response, one for each uri, whatever
    [sources] the parsed value held. *)
Theorem fetchCompanyData_frame response data :
  fetchCompanyData (Returns response) = Returns data ->
  let parsedData := extractJson (response_text response) in
  let citations := chunks_sources (response_groundingChunks response) in
  dom data = {[ str "sources" ]} ∪ dom (own_props parsedData)
  /\ (forall k, k <> str "sources" -> data !! k = own_props parsedData !! k)
  /\ data !! str "sources" = Some (JArray (source_to_js <$> uniqueSources citations)).
Proof.
  intros Hret parsedData citations.
  apply fetchCompanyData_returns in Hret as [_ ->].
  split_and!.
  - apply dom_insert_L.
  - intros k Hk. by apply lookup_insert_ne.
  - apply lookup_insert_eq.
Qed.

Lemma fetchCompanyData_frame_witness :
  let response := cited_response [web_chunk "About" "https://a.example"]
                    "```json {'summary': 'A company.', 'sources': 7} ```" in
  own_props (extractJson (response_text response)) !! str "sources"
  = Some (JNumber 7 0)
  /\ match fetchCompanyData (Returns response) with
     | Returns data =>
         data !! str "summary" = Some (JString (str "A company."))
         /\ data !! str "sources"
            = Some (JArray [source_to_js {| title := Some (str "About");
                                            uri := Some (str "https://a.example") |}])
     | Throws _ => False
     end.
Proof.
  intros response. split; [vm_compute; reflexivity|].
  destruct (fetchCompanyData (Returns response)) as [data|e] eqn:E;
    [|vm_compute in E; discriminate].
  pose proof (fetchCompanyData_frame _ _ E) as (_ & Hframe & Hsources).
  split.
  - rewrite Hframe by (vm_compute; discriminate). vm_compute. reflexivity.
  - rewrite Hsources. vm_compute. reflexivity.
Defined.

(** ** Deduplication *)

Section MapMore.
Context {K V : Type} `{EqDecision K}.
Implicit Types (m entries : list (K * V)) (k : K) (v : V).

Lemma first_occurrences_NoDup (ks : list K) : NoDup (first_occurrences ks).
Proof.
  induction ks as [|k ks IH]; [apply NoDup_nil_2|].
  rewrite first_occurrences_cons. apply NoDup_cons. split.
  - rewrite list_elem_of_filter. tauto.
  - by apply NoDup_filter.
Qed.

Lemma Map_set_fresh m k v : k ∉ m.*1 -> Map_set m k v = m ++ [(k, v)].
Proof.
  induction m as [|[k' v'] m IH]; [done|]. cbn [Map_set fmap list_fmap fst].
  intros Hk. apply not_elem_of_cons in Hk as [Hne Hk].
  rewrite decide_False by done. simpl. f_equal. by apply IH.
Qed.

(** Entries whose keys are distinct make a map that holds them as they
    are. *)
Lemma Map_new_distinct entries : NoDup entries.*1 -> Map_new entries = entries.
Proof.
  induction entries as [|[k v] entries IH] using rev_ind; [done|].
  rewrite fmap_app. intros (Hnd & Hk & _)%NoDup_app.
  rewrite Map_new_snoc, IH by done. apply Map_set_fresh.
  intros Hin. apply (Hk k Hin). simpl. left.
Qed.
End MapMore.

Lemma uniqueSources_distinct sources :
  NoDup (uri <$> sources) -> uniqueSources sources = sources.
Proof.
  intros Hnd. unfold uniqueSources, Map_values.
  rewrite Map_new_distinct.
  - rewrite <- list_fmap_compose. induction sources as [|s l IH]; [done|].
    simpl. f_equal. apply IH. by apply NoDup_cons in Hnd as [_ ?].
  - change (NoDup (fst <$> ((fun s => (uri s, s)) <$> sources))).
    by rewrite <- list_fmap_compose.
Qed.

Lemma uniqueSources_NoDup sources : NoDup (uri <$> uniqueSources sources).
Proof. rewrite uniqueSources_uris. apply first_occurrences_NoDup. Qed.

(** X4. Deduplication neither invents nor loses: no two sources retained
    bear the same uri, every source retained is one of the citations, and
    every uri cited is the uri of a source retained. *)
Theorem uniqueSources_sound_complete (sources : list GroundingSource) :
  NoDup (uri <$> uniqueSources sources)
  /\ (forall s, s ∈ uniqueSources sources -> s ∈ sources)
  /\ (forall u, u ∈ uri <$> uniqueSources sources <-> u ∈ uri <$> sources).
Proof.
  split_and!.
  - apply uniqueSources_NoDup.
  - intros s Hs. apply uniqueSources_last in Hs.
    apply last_Some_elem_of, list_elem_of_filter in Hs. tauto.
  - intros u. rewrite uniqueSources_uris. apply elem_of_first_occurrences.
Qed.

Lemma uniqueSources_sound_complete_witness :
  {| title := Some (str "later"); uri := Some (str "a") |}
  ∈ [ {| title := Some (str "first"); uri := Some (str "a") |};
      {| title := Some (str "later"); uri := Some (str "a") |} ].
Proof.
  apply (proj1 (proj2 (uniqueSources_sound_complete
           [ {| title := Some (str "first"); uri := Some (str "a") |};
             {| title := Some (str "later"); uri := Some (str "a") |} ]))).
  vm_compute. left.
Defined.

(** X5. Citations whose uris are distinct are all retained, as they are and
    in their order; so deduplicating twice is deduplicating once. *)
Theorem uniqueSources_idempotent (sources : list GroundingSource) :
  (NoDup (uri <$> sources) -> uniqueSources sources = sources)
  /\ uniqueSources (uniqueSources sources) = uniqueSources sources.
Proof.
  split; [apply uniqueSources_distinct|].
  apply uniqueSources_distinct, uniqueSources_NoDup.
Qed.

Lemma uniqueSources_idempotent_witness :
  uniqueSources [cite "a"; cite "b"] = [cite "a"; cite "b"].
Proof.
  apply (proj1 (uniqueSources_idempotent [cite "a"; cite "b"])).
  vm_compute. repeat constructor; rewrite ?elem_of_cons, ?elem_of_nil;
    intuition discriminate.
Defined.

(** ** The sources panel *)

Lemma source_link_to_js s : source_link (source_to_js s) = Some (source_pair s).
Proof.
  unfold source_link, source_to_js, source_pair, get_prop. cbn [own_props].
  rewrite lookup_insert_ne by (vm_compute; discriminate).
  rewrite lookup_insert_eq, lookup_insert_eq. cbn [default].
  by destruct (title s) as [[|c t]|].
Qed.

Lemma mapM_fmap_total {A B C} (f : B -> option C) (g : A -> B) (h : A -> C) l :
  (forall x, f (g x) = Some (h x)) -> mapM f (g <$> l) = Some (h <$> l).
Proof.
  intros Hf. induction l as [|x l IH]; [done|].
  cbn [fmap list_fmap]. cbn [mapM]. rewrite Hf. simpl.
  change (list_fmap A B g l) with (g <$> l). rewrite IH. done.
Qed.

Global Instance opt_to_js_inj : Inj (=) (=) opt_to_js.
Proof. intros [x|] [y|]; simpl; congruence. Qed.

(** X6. Of the record of a query, the panel links the first six sources
    retained and no more, each under its title, or under its uri when the
    title is absent or empty; no two links lead to the same uri. *)
Theorem sources_links_of_query response data :
  fetchCompanyData (Returns response) = Returns data ->
  let kept := uniqueSources (chunks_sources (response_groundingChunks response)) in
  sources_links data = Some (source_pair <$> take 6 kept)
  /\ (length (take 6 kept) <= 6)%nat
  /\ NoDup (fst <$> (source_pair <$> take 6 kept)).
Proof.
  intros Hret kept. apply fetchCompanyData_returns in Hret as [_ ->].
  split_and!.
  - unfold sources_links. rewrite lookup_insert_eq, <- fmap_take.
    apply mapM_fmap_total, source_link_to_js.
  - rewrite length_take. lia.
  - rewrite <- list_fmap_compose.
    change (fst ∘ source_pair) with (opt_to_js ∘ uri).
    rewrite list_fmap_compose. apply (NoDup_fmap_2 _).
    rewrite fmap_take. eapply sublist_NoDup; [apply uniqueSources_NoDup|].
    apply sublist_take.
Qed.

Lemma sources_links_of_query_witness :
  sources_links (<[str "sources" := JArray (source_to_js <$> [cite "a"; cite "b"])]> ∅)
  = Some [(JString (str "a"), JString (str "a")); (JString (str "b"), JString (str "b"))].
Proof.
  refine (proj1 (sources_links_of_query aba_response _ _)).
  vm_compute. reflexivity.
Defined.

(** ** The turn, read from its event log *)

Lemma applied_updates_app evs evs' :
  applied_updates (evs ++ evs') = applied_updates evs ++ applied_updates evs'.
Proof. apply omap_app. Qed.

Lemma sent_inputs_app evs evs' :
  sent_inputs (evs ++ evs') = sent_inputs evs ++ sent_inputs evs'.
Proof. apply omap_app. Qed.

Lemma received_replies_app evs evs' :
  received_replies (evs ++ evs') = received_replies evs ++ received_replies evs'.
Proof. apply omap_app. Qed.

Lemma received_responses_app evs evs' :
  received_responses (evs ++ evs')
  = received_responses evs ++ received_responses evs'.
Proof. apply omap_app. Qed.

Lemma log_of_updates (args : list JsValue) :
  applied_updates (Updated <$> args) = args
  /\ sent_inputs (Updated <$> args) = []
  /\ received_replies (Updated <$> args) = []
  /\ received_responses (Updated <$> args) = [].
Proof.
  induction args as [|a args (IH1 & IH2 & IH3 & IH4)]; [done|].
  split_and!; [simpl; f_equal; exact IH1|exact IH2|exact IH3|exact IH4].
Qed.

Lemma requested_updates_cons response responses :
  requested_updates (response :: responses)
  = (fc_args <$> recognized (default [] (functionCalls response)))
    ++ requested_updates responses.
Proof. reflexivity. Qed.

Lemma final_text_not_empty response : final_text response <> [].
Proof.
  unfold final_text. destruct (chat_text response) as [[|c t]|]; try done;
    vm_compute; discriminate.
Qed.

Section TurnFacts.
Context {S : Type} (onUpdate : JsValue -> S -> S).

Lemma tool_loop_unrecognized script response (w : World S) call calls :
  functionCalls response = Some (call :: calls) ->
  recognized (call :: calls) = [] ->
  tool_loop onUpdate script response w = (w, Resolved (final_text response)).
Proof.
  intros E Hrec. rewrite (tool_loop_calls _ _ _ _ _ _ E), Hrec. cbv zeta.
  destruct w. simpl. by rewrite app_nil_r.
Qed.

Lemma tool_loop_recognized script response (w : World S) call calls :
  functionCalls response = Some (call :: calls) ->
  recognized (call :: calls) <> [] ->
  tool_loop onUpdate script response w =
  let args := fc_args <$> recognized (call :: calls) in
  let acks := acknowledgment <$> recognized (call :: calls) in
  let w2 := {| app := foldl (fun st a => onUpdate a st) (app w) args;
               events := events w ++ (Updated <$> args)
                         ++ [Sent (ToolResults acks)] |} in
  match script with
  | [] => (w2, Pending)
  | Throws e :: _ => (emit (Received (Throws e)) w2, Resolved error_reply)
  | Returns response' :: script' =>
      tool_loop onUpdate script' response' (emit (Received (Returns response')) w2)
  end.
Proof.
  intros E Hrec. rewrite (tool_loop_calls _ _ _ _ _ _ E). cbv zeta.
  rewrite foldl_fmap.
  destruct (recognized (call :: calls)) as [|c cs]; [done|].
  cbn [fmap list_fmap]. unfold emit. cbn [app events].
  rewrite <- !app_assoc. reflexivity.
Qed.

Lemma batch_of_recognized calls :
  recognized calls <> [] ->
  is_batch (ToolResults (acknowledgment <$> recognized calls)) = true.
Proof. by destruct (recognized calls). Qed.

(** What the loop adds to the log, from the response it is entered with. *)
Lemma tool_loop_log script response (w : World S) :
  exists new,
    events (tool_loop onUpdate script response w).1 = events w ++ new
    /\ applied_updates new = requested_updates (response :: received_responses new)
    /\ app (tool_loop onUpdate script response w).1
       = foldl (fun st args => onUpdate args st) (app w) (applied_updates new)
    /\ forallb is_batch (sent_inputs new) = true
    /\ length (sent_inputs new)
       = (length (received_replies new)
          + pending_sends (tool_loop onUpdate script response w).2)%nat
    /\ (tool_loop onUpdate script response w).2 <> Resolved [].
Proof.
  assert (Hstop : forall script response (w : World S),
            requested_updates [response] = [] ->
            tool_loop onUpdate script response w = (w, Resolved (final_text response)) ->
            exists new,
              events (tool_loop onUpdate script response w).1 = events w ++ new
              /\ applied_updates new
                 = requested_updates (response :: received_responses new)
              /\ app (tool_loop onUpdate script response w).1
                 = foldl (fun st args => onUpdate args st) (app w) (applied_updates new)
              /\ forallb is_batch (sent_inputs new) = true
              /\ length (sent_inputs new)
                 = (length (received_replies new)
                    + pending_sends (tool_loop onUpdate script response w).2)%nat
              /\ (tool_loop onUpdate script response w).2 <> Resolved []).
  { intros script0 response0 w0 Hreq ->. exists []. rewrite app_nil_r.
    split_and!; try done. intros [= H]. by apply final_text_not_empty in H. }
  revert response w. induction script as [|reply script IH]; intros response w;
    (destruct (functionCalls response) as [[|call calls]|] eqn:E;
     [apply Hstop; [by rewrite requested_updates_cons, E
                   |apply tool_loop_no_calls; auto]
     |
     |apply Hstop; [by rewrite requested_updates_cons, E
                   |apply tool_loop_no_calls; auto]]).
  all: destruct (decide (recognized (call :: calls) = [])) as [Hrec|Hrec];
    [apply Hstop; [rewrite requested_updates_cons, E;
                   change (default [] (Some (call :: calls))) with (call :: calls);
                   by rewrite Hrec
                  |by apply (tool_loop_unrecognized _ _ _ call calls)]|].
  all: rewrite (tool_loop_recognized _ _ _ _ _ E Hrec); cbv zeta.
  all: pose proof (log_of_updates (fc_args <$> recognized (call :: calls)))
         as (Hup & Hsent & Hrep & Hres).
  all: pose proof (batch_of_recognized _ Hrec) as Hbatch.
  all: set (args := fc_args <$> recognized (call :: calls)) in *.
  all: set (acks := acknowledgment <$> recognized (call :: calls)) in *.
  all: assert (Hreq : forall rs, requested_updates (response :: rs)
                                 = args ++ requested_updates rs)
         by (intros rs; rewrite requested_updates_cons, E; reflexivity).
  - eexists. split; [reflexivity|].
    rewrite applied_updates_app, sent_inputs_app, received_replies_app,
      received_responses_app, Hup, Hsent, Hrep, Hres, Hreq.
    cbn [Datatypes.app omap list_omap applied_updates sent_inputs received_replies
         received_responses length forallb foldl Nat.add pending_sends fst snd].
    rewrite Hbatch, !app_nil_r. done.
  - destruct reply as [response'|e].
    + match goal with |- context [tool_loop onUpdate script response' ?w2] =>
        destruct (IH response' w2) as (new' & Hev & Happ & Hst & Hb & Hlen & Hne)
      end.
      exists ((Updated <$> args) ++ [Sent (ToolResults acks)]
              ++ [Received (Returns response')] ++ new').
      split; [rewrite Hev; cbn [emit events]; rewrite <- !app_assoc; reflexivity|].
      rewrite !applied_updates_app, !sent_inputs_app, !received_replies_app,
        !received_responses_app, Hup, Hsent, Hrep, Hres, Hreq.
      cbn [Datatypes.app omap list_omap applied_updates sent_inputs received_replies
           received_responses length forallb foldl Nat.add fst snd emit events].
      rewrite Hbatch, Hb, Hst, Happ, Hlen, foldl_app.
      split_and!; try done.
    + eexists. split; [cbn [emit events fst]; rewrite <- !app_assoc; reflexivity|].
      rewrite !applied_updates_app, !sent_inputs_app, !received_replies_app,
        !received_responses_app, Hup, Hsent, Hrep, Hres, Hreq.
      cbn [Datatypes.app omap list_omap applied_updates sent_inputs received_replies
           received_responses length forallb foldl Nat.add pending_sends fst snd
           emit events].
      rewrite Hbatch, !app_nil_r. done.
Qed.
(** The reply of the loop is read off the last reply received: the response
    the loop is entered with, when the loop receives none. *)
Lemma tool_loop_reply script response (w : World S) :
  exists new,
    events (tool_loop onUpdate script response w).1 = events w ++ new
    /\ match (tool_loop onUpdate script response w).2 with
       | Resolved reply =>
           match last (Returns response :: received_replies new) with
           | Some (Returns r) => reply = final_text r
           | Some (Throws _) => reply = error_reply
           | None => False
           end
       | Rejected _ => False
       | Pending => True
       end.
Proof.
  assert (Hstop : forall script response (w : World S),
            tool_loop onUpdate script response w = (w, Resolved (final_text response)) ->
            exists new,
              events (tool_loop onUpdate script response w).1 = events w ++ new
              /\ match (tool_loop onUpdate script response w).2 with
                 | Resolved reply =>
                     match last (Returns response :: received_replies new) with
                     | Some (Returns r) => reply = final_text r
                     | Some (Throws _) => reply = error_reply
                     | None => False
                     end
                 | Rejected _ => False
                 | Pending => True
                 end).
  { intros script0 response0 w0 ->. exists []. by rewrite app_nil_r. }
  revert response w. induction script as [|reply script IH]; intros response w;
    (destruct (functionCalls response) as [[|call calls]|] eqn:E;
     [apply Hstop, tool_loop_no_calls; auto
     |
     |apply Hstop, tool_loop_no_calls; auto]).
  all: destruct (decide (recognized (call :: calls) = [])) as [Hrec|Hrec];
    [by apply Hstop, (tool_loop_unrecognized _ _ _ call calls)|].
  all: rewrite (tool_loop_recognized _ _ _ _ _ E Hrec); cbv zeta.
  all: pose proof (log_of_updates (fc_args <$> recognized (call :: calls)))
         as (_ & _ & Hrep & _).
  all: set (args := fc_args <$> recognized (call :: calls)) in *.
  all: set (acks := acknowledgment <$> recognized (call :: calls)) in *.
  - eexists. split; [reflexivity|]. done.
  - destruct reply as [response'|e].
    + match goal with |- context [tool_loop onUpdate script response' ?w2] =>
        destruct (IH response' w2) as (new' & Hev & Hreply)
      end.
      exists ((Updated <$> args) ++ [Sent (ToolResults acks)]
              ++ [Received (Returns response')] ++ new').
      split; [rewrite Hev; cbn [emit events]; rewrite <- !app_assoc; reflexivity|].
      rewrite !received_replies_app, Hrep.
      cbn [Datatypes.app omap list_omap received_replies].
      exact Hreply.
    + eexists. split; [cbn [emit events fst]; rewrite <- !app_assoc; reflexivity|].
      rewrite !received_replies_app, Hrep. done.
Qed.
End TurnFacts.

Lemma sendMessage_log {St} (onUpdate : JsValue -> St -> St) message script
    (w : World St) :
  exists new,
    events (sendMessage onUpdate message script w).1
    = events w ++ Sent (UserText message) :: new
    /\ applied_updates new = requested_updates (received_responses new)
    /\ app (sendMessage onUpdate message script w).1
       = foldl (fun st args => onUpdate args st) (app w) (applied_updates new)
    /\ forallb is_batch (sent_inputs new) = true
    /\ S (length (sent_inputs new))
       = (length (received_replies new)
          + pending_sends (sendMessage onUpdate message script w).2)%nat
    /\ (sendMessage onUpdate message script w).2 <> Resolved [].
Proof.
  destruct script as [|[response|e] script']; cbn [sendMessage].
  - exists []. simpl. done.
  - destruct (tool_loop_log onUpdate script' response
                (emit (Received (Returns response)) (emit (Sent (UserText message)) w)))
      as (new & Hev & Happ & Hst & Hb & Hlen & Hne).
    exists (Received (Returns response) :: new).
    change (applied_updates (Received (Returns response) :: new))
      with (applied_updates new).
    change (received_responses (Received (Returns response) :: new))
      with (response :: received_responses new).
    change (sent_inputs (Received (Returns response) :: new))
      with (sent_inputs new).
    change (received_replies (Received (Returns response) :: new))
      with (Returns response :: received_replies new).
    simpl in Hev, Hst. rewrite Hev, Hst, <- !app_assoc.
    split_and!; try done. simpl. by rewrite Hlen.
  - exists [Received (Throws e)]. simpl. rewrite <- ?app_assoc.
    split_and!; done.
Qed.

(** X7. In a turn the callback is called on the arguments of every
    [update_company_data] request of every response received, once each and in
    the order received, and on nothing else; the state it acts on ends as the
    fold of the callback over these arguments, also when the turn ends on the
    error reply or stays pending: what was applied is not undone. *)
Theorem sendMessage_applies_each_request_once {S} (onUpdate : JsValue -> S -> S)
    (message : JsString) (script : list (Completion ChatResponse)) (st0 : S) :
  let turn := sendMessage onUpdate message script (start st0) in
  applied_updates (events turn.1)
  = requested_updates (received_responses (events turn.1))
  /\ app turn.1
     = foldl (fun st args => onUpdate args st) st0 (applied_updates (events turn.1)).
Proof.
  destruct (sendMessage_log onUpdate message script (start st0))
    as (new & Hev & Happ & Hst & _).
  cbv zeta. rewrite Hev, Hst. simpl.
  change (applied_updates (Sent (UserText message) :: new))
    with (applied_updates new).
  change (received_responses (Sent (UserText message) :: new))
    with (received_responses new).
  done.
Qed.

(** X8. What a turn sends is the user's message first, then batches of
    acknowledgments none of which is empty; each send is answered by one reply,
    the last one apart when the turn stays pending. *)
Theorem sendMessage_send_discipline {S} (onUpdate : JsValue -> S -> S)
    (message : JsString) (script : list (Completion ChatResponse)) (st0 : S) :
  let turn := sendMessage onUpdate message script (start st0) in
  exists batches,
    sent_inputs (events turn.1) = UserText message :: batches
    /\ forallb is_batch batches = true
    /\ length (sent_inputs (events turn.1))
       = (length (received_replies (events turn.1)) + pending_sends turn.2)%nat.
Proof.
  destruct (sendMessage_log onUpdate message script (start st0))
    as (new & Hev & _ & _ & Hb & Hlen & _).
  cbv zeta. rewrite Hev. simpl.
  change (sent_inputs (Sent (UserText message) :: new))
    with (UserText message :: sent_inputs new).
  change (received_replies (Sent (UserText message) :: new))
    with (received_replies new).
  exists (sent_inputs new). split_and!; [done|done|]. simpl. lia.
Qed.

(** X9. The string a turn resolves to is never empty, and is read off the
    last reply that the turn received: the fixed error reply when that call to
    the dialogue failed; else the text of that response when it is not empty,
    and "I updated the information." when it is absent or empty. The promise
    of a turn is never rejected. *)
Theorem sendMessage_reply_not_empty {S} (onUpdate : JsValue -> S -> S)
    (message : JsString) (script : list (Completion ChatResponse)) (w : World S) :
  let turn := sendMessage onUpdate message script w in
  exists new,
    events turn.1 = events w ++ Sent (UserText message) :: new
    /\ match turn.2 with
       | Resolved reply =>
           reply <> []
           /\ match last (received_replies new) with
              | Some (Returns r) =>
                  reply = final_text r
                  /\ (chat_text r = Some reply
                      \/ reply = default_reply
                         /\ (chat_text r = None \/ chat_text r = Some []))
              | Some (Throws _) => reply = error_reply
              | None => False
              end
       | Rejected _ => False
       | Pending => True
       end.
Proof.
  assert (Hfinal : forall r,
            final_text r <> []
            /\ (chat_text r = Some (final_text r)
                \/ final_text r = default_reply
                   /\ (chat_text r = None \/ chat_text r = Some []))).
  { intros r. split; [apply final_text_not_empty|].
    unfold final_text. destruct (chat_text r) as [[|c t]|]; auto. }
  cbv zeta. destruct script as [|[response|e] script']; cbn [sendMessage].
  - exists []. done.
  - destruct (tool_loop_reply onUpdate script' response
                (emit (Received (Returns response)) (emit (Sent (UserText message)) w)))
      as (new & Hev & Hreply).
    exists (Received (Returns response) :: new).
    split; [rewrite Hev; simpl; by rewrite <- !app_assoc|].
    change (received_replies (Received (Returns response) :: new))
      with (Returns response :: received_replies new).
    destruct (tool_loop onUpdate script' response _).2 as [reply| |]; [|done|done].
    destruct (last (Returns response :: received_replies new)) as [[r|e]|];
      [|subst reply; split; [vm_compute; discriminate|done]|done].
    subst reply. destruct (Hfinal r). done.
  - exists [Received (Throws e)]. simpl. rewrite <- app_assoc.
    split; [done|]. split; [vm_compute; discriminate|done].
Qed.

Section Insistent.
Context {St : Type} (onUpdate : JsValue -> St -> St).
Context (args : JsValue) (answer : ChatResponse).
Hypothesis answer_plain :
  functionCalls answer = None \/ functionCalls answer = Some [].

Lemma recognized_update_call :
  recognized [update_call "1" args] = [update_call "1" args].
Proof. unfold recognized. by rewrite filter_cons_True by reflexivity. Qed.

Lemma insistent_step script response' (w : World St) :
  tool_loop onUpdate (Returns response' :: script)
    (calls_reply [update_call "1" args]) w
  = tool_loop onUpdate script response'
      {| app := onUpdate args (app w);
         events := events w
                   ++ [Updated args;
                       Sent (ToolResults [acknowledgment (update_call "1" args)]);
                       Received (Returns response')] |}.
Proof.
  rewrite (tool_loop_recognized onUpdate (Returns response' :: script)
             (calls_reply [update_call "1" args]) w (update_call "1" args) [] eq_refl)
    by (rewrite recognized_update_call; discriminate).
  cbv zeta. rewrite recognized_update_call. unfold emit.
  cbn [fmap list_fmap foldl fc_args update_call app events].
  by rewrite <- !app_assoc.
Qed.

Lemma insistent_loop n (w : World St) :
  let run := tool_loop onUpdate (insistent_dialogue n args answer)
               (calls_reply [update_call "1" args]) w in
  run.2 = Resolved (final_text answer)
  /\ length (sent_inputs (events run.1)) = (length (sent_inputs (events w)) + S n)%nat
  /\ applied_updates (events run.1)
     = applied_updates (events w) ++ replicate (S n) args.
Proof.
  revert w. induction n as [|n IH]; intros w; cbv zeta.
  - change (insistent_dialogue 0 args answer) with [Returns answer].
    rewrite insistent_step, tool_loop_no_calls by done.
    cbn [fst snd events]. rewrite sent_inputs_app, applied_updates_app, length_app.
    split_and!; [done|simpl; lia|done].
  - change (insistent_dialogue (S n) args answer)
      with (Returns (calls_reply [update_call "1" args])
            :: insistent_dialogue n args answer).
    rewrite insistent_step.
    match goal with |- context [tool_loop onUpdate _ _ ?w2] =>
      destruct (IH w2) as (Ho & Hlen & Hup) end.
    rewrite Ho, Hlen, Hup. cbn [events].
    rewrite sent_inputs_app, applied_updates_app, length_app, <- app_assoc.
    split_and!; [done|simpl; lia|done].
Qed.
End Insistent.

(** X10. The loop has no bound of its own: against a dialogue that requests
    an update [n] times in a row before it answers, the turn calls the callback
    [n] times, sends [n + 1] messages and returns the answer, for every [n]. *)
Theorem sendMessage_unbounded_round_trips {St} (onUpdate : JsValue -> St -> St)
    (message : JsString) (args : JsValue) (answer : ChatResponse) (st0 : St)
    (n : nat) :
  functionCalls answer = None \/ functionCalls answer = Some [] ->
  let turn := sendMessage onUpdate message (insistent_dialogue n args answer)
                (start st0) in
  turn.2 = Resolved (final_text answer)
  /\ length (sent_inputs (events turn.1)) = S n
  /\ applied_updates (events turn.1) = replicate n args.
Proof.
  intros Hplain. destruct n as [|n]; cbv zeta.
  - change (insistent_dialogue 0 args answer) with [Returns answer].
    cbn [sendMessage]. by rewrite tool_loop_no_calls by done.
  - change (insistent_dialogue (S n) args answer)
      with (Returns (calls_reply [update_call "1" args])
            :: insistent_dialogue n args answer).
    cbn [sendMessage].
    match goal with |- context [tool_loop onUpdate _ _ ?w2] =>
      destruct (insistent_loop onUpdate args answer Hplain n w2) as (Ho & Hlen & Hup)
    end.
    rewrite Ho, Hlen, Hup. done.
Qed.

Lemma sendMessage_unbounded_round_trips_witness :
  length (sent_inputs (events
    (sendMessage handleDataUpdate (str "add the merger")
       (insistent_dialogue 25 new_timeline (text_reply "Done."))
       (start (Some acme))).1)) = 26%nat.
Proof.
  refine (proj1 (proj2 (sendMessage_unbounded_round_trips handleDataUpdate
            (str "add the merger") new_timeline (text_reply "Done.") (Some acme) 25 _))).
  left. reflexivity.
Defined.

(** ** The data state under updates *)

Lemma handleDataUpdate_loaded (updates : JsValue) (p : Obj) :
  handleDataUpdate updates (Some p) = Some (own_props updates ∪ p).
Proof. reflexivity. Qed.

(** X11. On a record that is loaded, an update never removes a property;
    every property the update holds lands in the record, whether the tool
    declares it or not; and an update without properties of its own
    (undefined, null, a number, an empty object) changes nothing. *)
Theorem handleDataUpdate_merges (updates : JsValue) (p : Obj) :
  exists p',
    handleDataUpdate updates (Some p) = Some p'
    /\ dom p ⊆ dom p'
    /\ (forall k v, own_props updates !! k = Some v -> p' !! k = Some v)
    /\ (own_props updates = ∅ -> p' = p).
Proof.
  exists (own_props updates ∪ p). split_and!.
  - reflexivity.
  - rewrite dom_union_L. set_solver.
  - intros k v Hk. by apply lookup_union_Some_l.
  - intros ->. by rewrite (left_id_L ∅ (∪)).
Qed.

Lemma handleDataUpdate_merges_witness :
  exists p',
    handleDataUpdate (JObject {[ str "companyName" := JString (str "Globex") ]})
      (Some acme) = Some p'
    /\ p' !! str "companyName" = Some (JString (str "Globex")).
Proof.
  destruct (handleDataUpdate_merges
              (JObject {[ str "companyName" := JString (str "Globex") ]}) acme)
    as (p' & Hp' & _ & Hland & _).
  exists p'. split; [exact Hp'|]. apply Hland. vm_compute. reflexivity.
Defined.

(** X12. Two updates in a row are one update that holds the properties of
    both, those of the later one first; an update applied twice is applied
    once. *)
Theorem handleDataUpdate_compose (u1 u2 : JsValue) (st : DataState) :
  handleDataUpdate u2 (handleDataUpdate u1 st)
  = handleDataUpdate (JObject (own_props u2 ∪ own_props u1)) st
  /\ handleDataUpdate u1 (handleDataUpdate u1 st) = handleDataUpdate u1 st.
Proof.
  destruct st as [p|]; [|done]. rewrite !handleDataUpdate_loaded.
  cbn [own_props]. split.
  - by rewrite (assoc_L (∪)).
  - by rewrite (assoc_L (∪)), (idemp_L (∪)).
Qed.

Lemma foldl_handleDataUpdate_None (updates : list JsValue) :
  foldl (fun st args => handleDataUpdate args st) None updates = None.
Proof. by induction updates. Qed.

Lemma foldl_handleDataUpdate_Some (updates : list JsValue) (p : Obj) :
  exists p',
    foldl (fun st args => handleDataUpdate args st) (Some p) updates = Some p'
    /\ dom p ⊆ dom p'.
Proof.
  revert p. induction updates as [|u updates IH]; intros p; [by exists p|].
  cbn [foldl]. rewrite handleDataUpdate_loaded.
  destruct (IH (own_props u ∪ p)) as (p' & -> & Hdom).
  exists p'. split; [done|]. rewrite dom_union_L in Hdom. set_solver.
Qed.

(** X13. A chat turn, with the callback of the application, never unloads
    the record and never removes a property of it; and while no record is
    loaded it loads none, whatever the dialogue requests. *)
Theorem chat_turn_keeps_record (message : JsString)
    (script : list (Completion ChatResponse)) (st0 : DataState) :
  let st' := app (sendMessage handleDataUpdate message script (start st0)).1 in
  match st0 with
  | None => st' = None
  | Some p => exists p', st' = Some p' /\ dom p ⊆ dom p'
  end.
Proof.
  destruct (sendMessage_log handleDataUpdate message script (start st0))
    as (new & _ & _ & Hst & _).
  cbv zeta. rewrite Hst. destruct st0 as [p|].
  - apply foldl_handleDataUpdate_Some.
  - apply foldl_handleDataUpdate_None.
Qed.

(** ** The search handler *)

Lemma error_message_not_empty e : error_message e <> [].
Proof. destruct e as [[|c m]]; [vm_compute; discriminate|done]. Qed.

(** X14. A search on a blank query changes nothing. Any other search ends
    with the spinner off and the chat closed, the query and the tab as they
    were, and with exactly one of a record and an error message: the record
    that [fetchCompanyData] returned and no error, or no record at all,
    whatever was loaded before, and a message that is not empty. *)
Theorem handleSearch_outcome (upstream : Completion GenerateContentResponse)
    (st : AppState) :
  let st' := handleSearch upstream st in
  (trim (st_query st) = [] -> st' = st)
  /\ (trim (st_query st) <> [] ->
      st_loading st' = false
      /\ st_isChatOpen st' = false
      /\ st_query st' = st_query st
      /\ st_activeTab st' = st_activeTab st
      /\ ((exists record, fetchCompanyData upstream = Returns record
                          /\ st_data st' = Some record /\ st_error st' = None)
          \/ (exists err, fetchCompanyData upstream = Throws err
                          /\ st_data st' = None
                          /\ st_error st' = Some (error_message err)
                          /\ error_message err <> []))).
Proof.
  cbv zeta. unfold handleSearch, handleSearch_begin.
  destruct (trim (st_query st)) as [|c q]; split; try done.
  intros _. destruct (fetchCompanyData upstream) as [record|err]; cbn.
  - split_and!; try done. left. eauto.
  - split_and!; try done. right. eauto using error_message_not_empty.
Qed.

Lemma handleSearch_outcome_witness :
  st_data (handleSearch (Throws (Error (str "quota exceeded")))
             (acme_search (Some acme))) = None
  /\ st_error (handleSearch (Throws (Error (str "quota exceeded")))
                 (acme_search (Some acme))) = Some (str "quota exceeded").
Proof.
  destruct (proj2 (handleSearch_outcome (Throws (Error (str "quota exceeded")))
                     (acme_search (Some acme))))
    as (_ & _ & _ & _ & [(record & Hret & _)|(err & Hthrow & Hdata & Herr & _)]).
  - vm_compute. discriminate.
  - vm_compute in Hret. discriminate.
  - injection Hthrow as <-. split; [exact Hdata|exact Herr].
Defined.

(** ** The chat window at the end of a turn *)

Lemma sendMessage_caught {St} (onUpdate : JsValue -> St -> St) message script
    (w : World St) :
  ~ call_failed (events w) ->
  is_rejected (sendMessage onUpdate message script w).2 = false
  /\ (call_failed (events (sendMessage onUpdate message script w).1) ->
      (sendMessage onUpdate message script w).2 = Resolved error_reply).
Proof.
  intros Hw. destruct script as [|[response|e] script']; cbn [sendMessage].
  - split; [done|]. simpl.
    intros [?|?%sent_not_failed]%call_failed_app; done.
  - apply tool_loop_failure. simpl.
    intros [[?|?%sent_not_failed]%call_failed_app
           |?%reply_not_failed]%call_failed_app; done.
  - done.
Qed.

(** X15. When [handleSend] resumes after a turn, it never takes its [catch]
    branch: while the turn is pending nothing changes; otherwise exactly one
    message is added to the log, from the model, with the reply of the turn as
    its text, which is not empty, and the spinner is turned off. When a call to
    the dialogue failed, that text is "I encountered an error processing your
    request.", not the "trouble connecting" sentence of the [catch] branch. *)
Theorem handleSend_end_of_turn {St} (onUpdate : JsValue -> St -> St)
    (clock : Clock) (message : JsString) (script : list (Completion ChatResponse))
    (w : World St) (st : ChatWindowState) :
  ~ call_failed (events w) ->
  let turn := sendMessage onUpdate message script w in
  let st' := handleSend_end clock turn.2 st in
  match turn.2 with
  | Pending => st' = st
  | Resolved reply =>
      cw_messages st'
      = cw_messages st ++ [{| msg_id := Number_toString (Date_now clock + 1);
                              msg_role := RoleModel;
                              msg_text := reply;
                              msg_timestamp := new_Date clock |}]
      /\ cw_isLoading st' = false
      /\ cw_input st' = cw_input st
      /\ reply <> []
      /\ (call_failed (events turn.1) ->
          reply = error_reply /\ reply <> trouble_reply)
  | Rejected _ => False
  end.
Proof.
  intros Hw. cbv zeta.
  pose proof (sendMessage_caught onUpdate message script w Hw) as [Hrej Hfail].
  pose proof (sendMessage_log onUpdate message script w) as (_ & _ & _ & _ & _ & _ & Hne).
  destruct (sendMessage onUpdate message script w).2 as [reply|e|]; [|done|done].
  cbn. split_and!; try done.
  - by intros ->.
  - intros Hf. specialize (Hfail Hf) as [= ->]. split; [done|].
    vm_compute. discriminate.
Qed.

Lemma handleSend_end_of_turn_witness :
  cw_messages
    (handleSend_end {| Date_now := 1700000009000; new_Date := 1700000009000 |}
       (sendMessage handleDataUpdate (str "add the merger")
          [Throws (Error (str "network"))] (start (Some acme))).2
       waiting_window)
  = cw_messages waiting_window
    ++ [{| msg_id := str "1700000009001"; msg_role := RoleModel;
           msg_text := error_reply; msg_timestamp := 1700000009000 |}].
Proof.
  pose proof (handleSend_end_of_turn handleDataUpdate
                {| Date_now := 1700000009000; new_Date := 1700000009000 |}
                (str "add the merger") [Throws (Error (str "network"))]
                (start (Some acme)) waiting_window (start_not_failed (Some acme)))
    as H.
  cbv zeta in H.
  change ((sendMessage handleDataUpdate (str "add the merger")
             [Throws (Error (str "network"))] (start (Some acme))).2)
    with (Resolved error_reply) in *.
  exact (proj1 H).
Defined.

(** ** The order of the timeline *)

Section SortFacts.
Context {A : Type} (key : A -> Z).

Lemma insert_sorted_Permutation x l : insert_sorted key x l ≡ₚ x :: l.
Proof.
  induction l as [|y l IH]; [done|]. cbn [insert_sorted].
  destruct (key x <=? key y)%Z; [done|].
  rewrite IH. apply Permutation_swap.
Qed.

Lemma stable_sort_Permutation l : stable_sort key l ≡ₚ l.
Proof.
  induction l as [|x l IH]; [done|]. cbn [stable_sort foldr].
  fold (stable_sort key l). by rewrite insert_sorted_Permutation, IH.
Qed.

Lemma ascending_cons y ys :
  ascending (y :: ys) = true <->
  match ys with z :: _ => (y <= z)%Z | [] => True end /\ ascending ys = true.
Proof.
  destruct ys as [|z ys]; cbn [ascending]; [tauto|].
  rewrite andb_true_iff, Z.leb_le. tauto.
Qed.

Lemma insert_sorted_ascending x l :
  ascending (key <$> l) = true ->
  ascending (key <$> insert_sorted key x l) = true.
Proof.
  induction l as [|y l IH]; [done|]. intros Hl. cbn [insert_sorted].
  destruct (Z.leb_spec (key x) (key y)) as [Hle|Hlt].
  - cbn [fmap list_fmap]. apply ascending_cons. split; [done|exact Hl].
  - cbn [fmap list_fmap] in *. apply ascending_cons in Hl as [Hhd Hl].
    apply ascending_cons. split; [|by apply IH].
    destruct l as [|z l]; cbn [insert_sorted fmap list_fmap]; [lia|].
    cbn [fmap list_fmap] in Hhd. destruct (key x <=? key z)%Z; cbn; lia.
Qed.

Lemma stable_sort_ascending l : ascending (key <$> stable_sort key l) = true.
Proof.
  induction l as [|x l IH]; [done|]. by apply insert_sorted_ascending.
Qed.

Lemma insert_sorted_filter k x l :
  filter (fun a => key a = k) (insert_sorted key x l)
  = filter (fun a => key a = k) (x :: l).
Proof.
  induction l as [|y l IH]; [done|]. cbn [insert_sorted].
  destruct (Z.leb_spec (key x) (key y)) as [|Hlt]; [done|].
  destruct (decide (key x = k)) as [Hx|Hx].
  - rewrite (filter_cons_True _ x) by done.
    rewrite !(filter_cons_False _ y) by lia.
    rewrite IH. by rewrite filter_cons_True.
  - rewrite (filter_cons_False _ x) by done.
    destruct (decide (key y = k)).
    + rewrite !(filter_cons_True _ y) by done. rewrite IH.
      by rewrite filter_cons_False.
    + rewrite !(filter_cons_False _ y) by done. rewrite IH.
      by rewrite filter_cons_False.
Qed.

Lemma stable_sort_filter k l :
  filter (fun a => key a = k) (stable_sort key l) = filter (fun a => key a = k) l.
Proof.
  induction l as [|x l IH]; [done|]. cbn [stable_sort foldr].
  fold (stable_sort key l). rewrite insert_sorted_filter.
  destruct (decide (key x = k)).
  - rewrite !filter_cons_True by done. by rewrite IH.
  - rewrite !filter_cons_False by done. by rewrite IH.
Qed.
End SortFacts.

Lemma round_half_even_exact c d : (0 < d)%Z -> round_half_even (c * d) d = c.
Proof.
  intros Hd. unfold round_half_even.
  rewrite Z.div_mul, Z.mod_mul by lia.
  by destruct (Z.ltb_spec (2 * 0) d); [|lia].
Qed.

(** An integer of magnitude 2^53 at most is its own Number value. *)
Lemma Number_units_integer m e :
  (0 <= e)%Z -> (Z.abs m * 10 ^ e <= 2 ^ 53)%Z ->
  Number_units m e = (m * 10 ^ e * 2 ^ 1074)%Z.
Proof.
  intros He Hy. unfold Number_units.
  rewrite (Z.max_r 0 e), (Z.max_l 0 (- e)) by lia.
  change (10 ^ 0)%Z with 1%Z. change (Z.log2 1) with 0%Z.
  set (y := (Z.abs m * 10 ^ e)%Z) in *.
  assert (Hten : (0 < 10 ^ e)%Z) by (apply Z.pow_pos_nonneg; lia).
  destruct (decide (m = 0%Z)) as [->|Hm]; [reflexivity|].
  assert (Hpos : (0 < y)%Z) by (unfold y; nia).
  assert (HL : (0 <= Z.log2 y <= 53)%Z).
  { split; [apply Z.log2_nonneg|].
    transitivity (Z.log2 (2 ^ 53)); [by apply Z.log2_le_mono|].
    by rewrite Z.log2_pow2. }
  rewrite Z.log2_mul_pow2, Z.sub_0_r, !Z.mul_1_l by lia.
  set (L := Z.log2 y) in *.
  assert (Hlow : (2 ^ L <= y)%Z) by (apply Z.log2_spec; lia).
  assert (Hp : (2 ^ (1074 + L) = 2 ^ L * 2 ^ 1074)%Z)
    by (rewrite Z.pow_add_r by lia; lia).
  assert (H1074 : (0 < 2 ^ 1074)%Z) by (apply Z.pow_pos_nonneg; lia).
  destruct (Z.ltb_spec (y * 2 ^ 1074) (2 ^ (1074 + L))) as [Hlt|_].
  { rewrite Hp in Hlt. apply Z.mul_lt_mono_pos_r in Hlt; lia. }
  rewrite Z.max_r by lia.
  set (s := (1074 + L - 52)%Z).
  assert (Hs : (0 < 2 ^ s)%Z) by (apply Z.pow_pos_nonneg; lia).
  assert (Hc : exists c, (y * 2 ^ 1074 = c * 2 ^ s)%Z).
  { destruct (decide (L = 53%Z)) as [E|E].
    - exists (2 ^ 52)%Z. rewrite E in Hlow.
      assert (y = 2 ^ 53)%Z as Ey by lia.
      unfold s. rewrite Ey, E, <- !Z.pow_add_r by lia. reflexivity.
    - exists (y * 2 ^ (52 - L))%Z. unfold s.
      rewrite <- Z.mul_assoc, <- Z.pow_add_r by lia. do 2 f_equal. lia. }
  destruct Hc as [c Hc]. rewrite Hc, round_half_even_exact by done.
  rewrite <- Hc. rewrite Z.min_l.
  - unfold y. by rewrite !Z.mul_assoc, (Z.mul_comm (Z.sgn m)), Z.abs_sgn.
  - unfold Infinity_units.
    transitivity (2 ^ 53 * 2 ^ 1074)%Z; [nia|].
    rewrite <- Z.pow_add_r by lia. apply Z.pow_le_mono_r; lia.
Qed.

Example Number_units_values :
  Number_units 1 (-1) = (3602879701896397 * 2 ^ 1019)%Z          (* 0.1 *)
  /\ Number_units (-15) (-1) = (- (3 * 2 ^ 1073))%Z              (* -1.5 *)
  /\ Number_units 9007199254740993 0 = (2 ^ 53 * 2 ^ 1074)%Z     (* 2^53 + 1 *)
  /\ Number_units 9007199254740994 0 = ((2 ^ 53 + 2) * 2 ^ 1074)%Z
  /\ Number_units 9007199254740995 0 = ((2 ^ 53 + 4) * 2 ^ 1074)%Z
  /\ Number_units 5 (-324) = 1%Z                                 (* 5e-324 *)
  /\ Number_units 2 (-324) = 0%Z
  /\ Number_units 17976931348623157 292 = ((2 ^ 53 - 1) * 2 ^ 2045)%Z
  /\ Number_units 1 309 = Infinity_units.
Proof. vm_compute. split_and!; reflexivity. Qed.

Lemma year_key_number event m e :
  get_prop event (str "year") = Some (JNumber m e) ->
  year_key event = Some (Number_units m e).
Proof. intros E. unfold year_key. by rewrite E. Qed.

Lemma mapM_keyed data keyed :
  mapM (fun event => (fun y => (y, event)) <$> year_key event) data = Some keyed ->
  Forall keyed_by_year keyed /\ snd <$> keyed = data.
Proof.
  intros HM. apply mapM_Some_1 in HM.
  induction HM as [|event a data keyed Ha _ [IH1 IH2]]; [done|].
  destruct (year_key event) as [y|] eqn:Hy; [|done].
  injection Ha as <-. split; [by constructor|].
  cbn [fmap list_fmap snd]. f_equal. exact IH2.
Qed.

Lemma mapM_years keyed :
  Forall keyed_by_year keyed -> mapM year_key (snd <$> keyed) = Some (fst <$> keyed).
Proof.
  induction 1 as [|[y event] keyed Ha _ IH]; [done|].
  cbn [fmap list_fmap snd fst]. cbn [mapM]. unfold keyed_by_year in Ha.
  simpl in Ha. rewrite Ha. simpl.
  change (list_fmap _ _ snd keyed) with (snd <$> keyed). rewrite IH. done.
Qed.

Lemma filter_years y keyed :
  Forall keyed_by_year keyed ->
  filter (fun event => year_key event = Some y) (snd <$> keyed)
  = snd <$> filter (fun a => a.1 = y) keyed.
Proof.
  induction 1 as [|[z event] keyed Ha _ IH]; [done|].
  unfold keyed_by_year in Ha. simpl in Ha. cbn [fmap list_fmap snd].
  change (list_fmap _ _ snd keyed) with (snd <$> keyed).
  destruct (decide (z = y)) as [->|Hne].
  - rewrite !filter_cons_True by done. cbn [fmap list_fmap snd].
    by rewrite IH.
  - rewrite (filter_cons_False _ event) by congruence.
    rewrite (filter_cons_False _ (z, event)) by done. exact IH.
Qed.

(** Events whose years are numbers all have a key. *)
Lemma numbers_keyed data :
  Forall (fun event => exists m e, get_prop event (str "year") = Some (JNumber m e))
    data ->
  exists keyed,
    mapM (fun event => (fun y => (y, event)) <$> year_key event) data = Some keyed.
Proof.
  intros Hnum. apply mapM_is_Some. eapply Forall_impl; [exact Hnum|].
  intros event (m & e & E). simpl. rewrite (year_key_number _ _ _ E). by eexists.
Qed.

Lemma sortedData_keyed data keyed :
  mapM (fun event => (fun y => (y, event)) <$> year_key event) data = Some keyed ->
  sortedData data = Some (snd <$> stable_sort fst keyed).
Proof.
  intros HM. destruct data as [|x [|y data]].
  - by injection HM as <-.
  - cbn [mapM] in HM. destruct (year_key x) as [k|]; [|done].
    by injection HM as <-.
  - unfold sortedData. by rewrite HM.
Qed.

(** X16. Where the year of every event is a number, the chart draws the
    events of the timeline, all of them and no other, in the order of their
    years as the numbers they are, events of one year in the order the
    timeline has them; where the years are integers of magnitude 2^53 at
    most, this is the order of the integers. *)
Theorem sortedData_chronological (data : list JsValue) :
  Forall (fun event => exists m e, get_prop event (str "year") = Some (JNumber m e))
    data ->
  (exists sorted,
     sortedData data = Some sorted
     /\ sorted ≡ₚ data
     /\ (exists keys, mapM year_key sorted = Some keys /\ ascending keys = true)
     /\ (forall k, filter (fun event => year_key event = Some k) sorted
                   = filter (fun event => year_key event = Some k) data))
  /\ (forall event m e,
        get_prop event (str "year") = Some (JNumber m e) ->
        (0 <= e)%Z -> (Z.abs m * 10 ^ e <= 2 ^ 53)%Z ->
        year_key event = Some (m * 10 ^ e * 2 ^ 1074)%Z).
Proof.
  intros Hnum. split.
  - destruct (numbers_keyed _ Hnum) as [keyed HM].
    exists (snd <$> stable_sort fst keyed).
    split; [by apply sortedData_keyed|].
    apply mapM_keyed in HM as [Hinv <-].
    assert (Hinv' : Forall keyed_by_year (stable_sort fst keyed)).
    { by rewrite stable_sort_Permutation. }
    split_and!.
    + by rewrite stable_sort_Permutation.
    + exists (fst <$> stable_sort fst keyed). split; [by apply mapM_years|].
      apply stable_sort_ascending.
    + intros y. rewrite !filter_years by done. by rewrite stable_sort_filter.
  - intros event m e E He Hy.
    by rewrite (year_key_number _ _ _ E), Number_units_integer.
Qed.

Lemma sortedData_chronological_witness :
  (exists sorted,
     sortedData [event_of_year 1983 "Console"; event_of_year 2017 "Hybrid";
                 event_of_year 1983 "Crash"; event_of_year 1889 "Founded"]
     = Some sorted
     /\ sorted ≡ₚ [event_of_year 1983 "Console"; event_of_year 2017 "Hybrid";
                   event_of_year 1983 "Crash"; event_of_year 1889 "Founded"])
  /\ year_key (event_of_year 1983 "Console") = Some (1983 * 10 ^ 0 * 2 ^ 1074)%Z.
Proof.
  destruct (sortedData_chronological
              [event_of_year 1983 "Console"; event_of_year 2017 "Hybrid";
               event_of_year 1983 "Crash"; event_of_year 1889 "Founded"]
              ltac:(repeat constructor; by do 2 eexists))
    as [(sorted & Hsorted & Hperm & _) Hinteger].
  split; [exists sorted; split; [exact Hsorted|exact Hperm]|].
  apply Hinteger; [reflexivity|lia|lia].
Defined.

Example sortedData_sample :
  sortedData [event_of_year 1983 "Console"; event_of_year 2017 "Hybrid";
              event_of_year 1983 "Crash"; event_of_year 1889 "Founded";
              JObject {[ str "year" := JNumber 19835 (-1) ]}]
  = Some [event_of_year 1889 "Founded"; event_of_year 1983 "Console";
          event_of_year 1983 "Crash";
          JObject {[ str "year" := JNumber 19835 (-1) ]};
          event_of_year 2017 "Hybrid"].
Proof. vm_compute. reflexivity. Qed.

(** ** The founding date of the info card *)

Lemma Array_find_first p pre x post :
  Forall (fun e => p e = Some false) pre ->
  p x = Some true ->
  Array_find p (pre ++ x :: post) = Some x.
Proof.
  intros Hpre Hx. induction Hpre as [|e pre He _ IH]; simpl.
  - by rewrite Hx.
  - by rewrite He.
Qed.

Lemma Array_find_none p l :
  Forall (fun e => p e = Some false) l -> Array_find p l = Some JUndefined.
Proof. induction 1 as [|e l He _ IH]; simpl; [done|by rewrite He]. Qed.

Lemma js_or_truthy a b : truthy b = true -> truthy (js_or a b) = true.
Proof. intros Hb. unfold js_or. by destruct (truthy a) eqn:Ha. Qed.

(** X17. The founding date of the info card is read off the first event
    tagged founding, and off that event alone: its [dateStr] when truthy, else
    its [year] when truthy, else "N/A"; it is "N/A" when no event is tagged
    founding, and never an empty or falsy value. On a record whose [timeline]
    is not an array, which [fetchCompanyData] lets through, the expression
    throws. *)
Theorem founding_date_first_founding (data : Obj) :
  (forall pre event post,
     Forall (fun e => is_founding e = Some false) pre ->
     is_founding event = Some true ->
     founding_date (<[str "timeline" := JArray (pre ++ event :: post)]> data)
     = Some (js_or (optional_prop event (str "dateStr"))
               (js_or (optional_prop event (str "year")) (JString (str "N/A")))))
  /\ (forall events,
        Forall (fun e => is_founding e = Some false) events ->
        founding_date (<[str "timeline" := JArray events]> data)
        = Some (JString (str "N/A")))
  /\ (forall v, founding_date data = Some v -> truthy v = true)
  /\ ((forall events, data !! str "timeline" <> Some (JArray events)) ->
      founding_date data = None).
Proof.
  split_and!.
  - intros pre event post Hpre Hev. unfold founding_date.
    rewrite lookup_insert_eq. by rewrite (Array_find_first _ _ _ _ Hpre Hev).
  - intros events Hnone. unfold founding_date.
    rewrite lookup_insert_eq. by rewrite (Array_find_none _ _ Hnone).
  - intros v. unfold founding_date.
    destruct (data !! str "timeline") as [[| | | | |events|]|]; try done.
    destruct (Array_find is_founding events) as [found|]; [|done].
    intros [= <-]. by do 2 apply js_or_truthy.
  - intros Hno. unfold founding_date.
    destruct (data !! str "timeline") as [[| | | | |events|]|]; try done.
    by destruct (Hno events).
Qed.

Lemma founding_date_first_founding_witness :
  founding_date (<[str "timeline" :=
                     JArray ([event_of_year 1983 "Console"]
                             ++ founding_event :: [merger_event])]> acme)
  = Some (JNumber 1889 0).
Proof.
  refine (proj1 (founding_date_first_founding acme)
            [event_of_year 1983 "Console"] founding_event [merger_event] _ _).
  - repeat constructor.
  - reflexivity.
Defined.
